(** * passgen: the constrained random password generator

    A shallow embedding of [PasswordGenerator] from [main.py]
    (the character classes, [generate_password] and
    [_password_meets_requirements]) and the properties of the
    generator that its specification states.

    Modelling choices.
    - A Python [str] is a list of code points ([N]); a one-character
      string is a code point, and [c in s] for such a [c] is list
      membership.
    - [custom_special] is [None] or a [str]: [option str].  Its
      truthiness ([if custom_special]) holds exactly for a non-empty
      string.
    - [length] is a Python [int] ([Z]); [range(length)] has
      [Z.to_nat length] elements, none when [length <= 0].
    - [secrets.choice] consumes randomness.  The random source is an
      arbitrary tape of naturals read through a cursor; one call of
      [secrets.choice(seq)] reads one cell and reduces it modulo
      [len(seq)].  Every index the real generator can return is
      produced by some tape, so a statement for all tapes covers every
      sequence of random draws.
    - The [while] loop has no bound in the source.  [fuel] bounds the
      number of times its body runs; a run that would need more
      iterations ends in [OutOfFuel].  A call never returns when it is
      [OutOfFuel] for every amount of fuel. *)

From Stdlib Require Import String Ascii NArith ZArith Bool Lia PeanoNat List.
Import ListNotations.

(** ** Strings *)

Definition char : Type := N.
Definition str : Type := list char.

Definition of_literal (s : string) : str :=
  map N_of_ascii (list_ascii_of_string s).

(** [c in s] for a one-character [c]. *)
Definition char_in (c : char) (s : str) : bool := existsb (N.eqb c) s.

(** The builtin [any] over a generator [p(c) for c in l]. *)
Definition any {A : Type} (p : A -> bool) (l : list A) : bool := existsb p l.

(** ** Outcomes, the random source and the monad threading it *)

Inductive exn : Type :=
| ValueError   (* raised by generate_password on an empty pool *)
| IndexError.  (* raised by secrets.choice on an empty sequence *)

Inductive result (A : Type) : Type :=
| Ok (a : A)
| Raise (e : exn)
| OutOfFuel.

Arguments Ok {A} a.
Arguments Raise {A} e.
Arguments OutOfFuel {A}.

Record rng : Type := mkRng { tape : nat -> nat; cursor : nat }.

Definition advance (s : rng) : rng :=
  {| tape := tape s; cursor := S (cursor s) |}.

Definition M (A : Type) : Type := rng -> result A * rng.

Definition ret {A : Type} (a : A) : M A := fun s => (Ok a, s).

Definition raise {A : Type} (e : exn) : M A := fun s => (Raise e, s).

Definition out_of_fuel {A : Type} : M A := fun s => (OutOfFuel, s).

Definition bind {A B : Type} (m : M A) (k : A -> M B) : M B :=
  fun s =>
    match m s with
    | (Ok a, s') => k a s'
    | (Raise e, s') => (Raise e, s')
    | (OutOfFuel, s') => (OutOfFuel, s')
    end.

Notation "x <- m ;; k" := (bind m (fun x => k))
  (at level 61, m at next level, right associativity).

Module secrets.

(** [_randbelow(n)] for [n > 0]: some index below [n]. *)
Definition randbelow (n : nat) : M nat :=
  fun s => (Ok (tape s (cursor s) mod n), advance s).

(** [secrets.choice(seq)]: [seq[randbelow(len(seq))]], an
    [IndexError] on an empty sequence. *)
Definition choice (seq : str) : M char :=
  match seq with
  | [] => raise IndexError
  | c0 :: _ =>
      i <- randbelow (length seq) ;;
      ret (nth i seq c0)
  end.

End secrets.

(** ** The generator *)

Module PasswordGenerator.

(** The attributes set by [__init__]. *)
Definition lowercase_chars : str :=
  of_literal "abcdefghijklmnopqrstuvwxyz".
Definition uppercase_chars : str :=
  of_literal "ABCDEFGHIJKLMNOPQRSTUVWXYZ".
Definition digit_chars : str := of_literal "0123456789".
(** The source literal holds, between the apostrophe and the comma,
    one double quote (code point 34). *)
Definition special_chars : str :=
  of_literal "!@#$%^&*()-_=+[{]}\|;:'" ++ [34%N] ++ of_literal ",<.>/?".

(** [''.join(secrets.choice(chars) for _ in range(length))], for the
    [n] elements of the range. *)
Fixpoint join_choices (chars : str) (n : nat) : M str :=
  match n with
  | 0 => ret []
  | S n' =>
      c <- secrets.choice chars ;;
      rest <- join_choices chars n' ;;
      ret (c :: rest)
  end.

Definition range_len (length : Z) : nat := Z.to_nat length.

Section Call.

Variable length : Z.
Variables use_lowercase use_uppercase use_digits use_special : bool.
Variable custom_special : option str.

Definition _password_meets_requirements (password : str) : bool :=
  if use_lowercase
     && negb (any (fun c => char_in c lowercase_chars) password)
  then false
  else if use_uppercase
          && negb (any (fun c => char_in c uppercase_chars) password)
  then false
  else if use_digits
          && negb (any (fun c => char_in c digit_chars) password)
  then false
  else if use_special then
    let special_set :=
      match custom_special with
      | Some (c :: rest) => c :: rest
      | _ => special_chars
      end in
    if negb (any (fun c => char_in c special_set) password)
    then false
    else true
  else true.

(** The pool assembled in the local [chars]. *)
Definition chars : str :=
  let chars := [] in
  let chars := if use_lowercase then chars ++ lowercase_chars else chars in
  let chars := if use_uppercase then chars ++ uppercase_chars else chars in
  let chars := if use_digits then chars ++ digit_chars else chars in
  let chars :=
    if use_special then
      match custom_special with
      | Some (c :: rest) => chars ++ (c :: rest)
      | _ => chars ++ special_chars
      end
    else chars in
  chars.

(** The [while not has_requirements] loop, entered with the
    current [password] and [has_requirements]. *)
Fixpoint regenerate (fuel : nat) (password : str)
         (has_requirements : bool) : M str :=
  if has_requirements then ret password
  else
    match fuel with
    | 0 => out_of_fuel
    | S fuel' =>
        password <- join_choices chars (range_len length) ;;
        regenerate fuel' password (_password_meets_requirements password)
    end.

Definition generate_password (fuel : nat) : M str :=
  match chars with
  | [] => raise ValueError
  | _ :: _ =>
      password <- join_choices chars (range_len length) ;;
      regenerate fuel password (_password_meets_requirements password)
  end.

End Call.

End PasswordGenerator.

Import PasswordGenerator.

(** ** What a run reads from the random source *)

(** The source after [n] calls of [secrets.choice]. *)
Fixpoint skip (n : nat) (s : rng) : rng :=
  match n with
  | 0 => s
  | S n' => skip n' (advance s)
  end.

(** The character one call of [secrets.choice pool] returns at [s]. *)
Definition pick (pool : str) (s : rng) : char :=
  match pool with
  | [] => 0%N
  | c0 :: _ => nth (tape s (cursor s) mod length pool) pool c0
  end.

(** The string [n] successive calls return from [s] on. *)
Fixpoint sample (pool : str) (n : nat) (s : rng) : str :=
  match n with
  | 0 => []
  | S n' => pick pool s :: sample pool n' (advance s)
  end.

(** The set the special-presence check tests against. *)
Definition special_set (custom_special : option str) : str :=
  match custom_special with
  | Some (c :: rest) => c :: rest
  | _ => special_chars
  end.

(** No character of [a] occurs in [b]. *)
Definition disjointb (a b : str) : bool :=
  forallb (fun c => negb (char_in c b)) a.

(** A tape that replays the listed draws and then zeroes. *)
Definition replay (draws : list nat) : rng :=
  {| tape := fun i => nth i draws 0; cursor := 0 |}.

(** The position of the first occurrence of [c] in [pool]. *)
Fixpoint index_of (c : char) (pool : str) : nat :=
  match pool with
  | [] => 0
  | d :: rest => if N.eqb c d then 0 else S (index_of c rest)
  end.

(** Draws under which [secrets.choice pool] spells [password]. *)
Definition draws_for (pool password : str) : list nat :=
  map (fun c => index_of c pool) password.

(** The classes the check looks for, one per set flag. *)
Definition required_classes (ul uu ud us : bool) (cs : option str)
  : list str :=
  (if ul then [lowercase_chars] else [])
    ++ (if uu then [uppercase_chars] else [])
    ++ (if ud then [digit_chars] else [])
    ++ (if us then [special_set cs] else []).

(** The set flags whose classes cannot share a character: the three
    fixed classes, and the special class when it is the default set. *)
Definition disjoint_required (ul uu ud us : bool) (cs : option str) : nat :=
  Nat.b2n ul + Nat.b2n uu + Nat.b2n ud
  + match cs with
    | Some (_ :: _) => 0
    | _ => Nat.b2n us
    end.

(** One character of every required class, in flag order. *)
Definition one_of_each (ul uu ud us : bool) (cs : option str) : str :=
  map (hd 0%N) (required_classes ul uu ud us cs).

(** The classes counted by [disjoint_required]. *)
Definition rigid_classes (ul uu ud us : bool) (cs : option str)
  : list str :=
  required_classes ul uu ud
    (match cs with Some (_ :: _) => false | _ => us end) None.

(** [a] and [b] have no character in common. *)
Definition share_no_char (a b : str) : Prop :=
  forall c, In c a -> In c b -> False.

(** No two classes of the list share a character. *)
Fixpoint pairwise_disjointb (classes : list str) : bool :=
  match classes with
  | [] => true
  | cls :: rest =>
      forallb (disjointb cls) rest && pairwise_disjointb rest
  end.

(** A string of [range_len len] characters of the pool that starts
    with one character of every required class. *)
Definition padded (len : Z) (ul uu ud us : bool) (cs : option str) : str :=
  one_of_each ul uu ud us cs
    ++ repeat (hd 0%N (chars ul uu ud us cs))
         (range_len len - length (one_of_each ul uu ud us cs)).

(** ** The window *)

Module PasswordGeneratorApp.

(** The message boxes the handlers open. *)
Inductive dialog : Type :=
| Warning            (* no character type is selected *)
| Critical (e : exn) (* an exception escaped generate_password *)
| Information.       (* the password was copied *)

(** What the handlers read and write: the value of the length spin
    box, the four check boxes, the text of the custom special
    characters field, the text of the read-only password field, the
    text on the system clipboard, and the message boxes opened so far,
    oldest first.  The slider mirrors the spin box and is read by no
    handler. *)
Record app : Type := mkApp {
  length_spinbox : Z;
  use_lowercase : bool;
  use_uppercase : bool;
  use_digits : bool;
  use_special : bool;
  special_chars_edit : str;
  password_display : str;
  clipboard : str;
  dialogs : list dialog
}.

(** [self.password_display.setText(text)]. *)
Definition display_setText (a : app) (text : str) : app :=
  {| length_spinbox := length_spinbox a;
     use_lowercase := use_lowercase a;
     use_uppercase := use_uppercase a;
     use_digits := use_digits a;
     use_special := use_special a;
     special_chars_edit := special_chars_edit a;
     password_display := text;
     clipboard := clipboard a;
     dialogs := dialogs a |}.

(** [QApplication.clipboard().setText(text)]. *)
Definition clipboard_setText (a : app) (text : str) : app :=
  {| length_spinbox := length_spinbox a;
     use_lowercase := use_lowercase a;
     use_uppercase := use_uppercase a;
     use_digits := use_digits a;
     use_special := use_special a;
     special_chars_edit := special_chars_edit a;
     password_display := password_display a;
     clipboard := text;
     dialogs := dialogs a |}.

(** Opening a [QMessageBox]. *)
Definition open_dialog (a : app) (d : dialog) : app :=
  {| length_spinbox := length_spinbox a;
     use_lowercase := use_lowercase a;
     use_uppercase := use_uppercase a;
     use_digits := use_digits a;
     use_special := use_special a;
     special_chars_edit := special_chars_edit a;
     password_display := password_display a;
     clipboard := clipboard a;
     dialogs := dialogs a ++ [d] |}.

(** The argument the handler passes for [custom_special]. *)
Definition custom_special_of (a : app) : option str :=
  if use_special a then Some (special_chars_edit a) else None.

Definition _generate_password (fuel : nat) (a : app) : M app :=
  if negb (any (fun checked : bool => checked)
             [use_lowercase a; use_uppercase a; use_digits a; use_special a])
  then ret (open_dialog a Warning)
  else
    fun s =>
      match generate_password (length_spinbox a)
              (use_lowercase a) (use_uppercase a) (use_digits a)
              (use_special a) (custom_special_of a) fuel s with
      | (Ok password, s') => (Ok (display_setText a password), s')
      | (Raise e, s') => (Ok (open_dialog a (Critical e)), s')
      | (OutOfFuel, s') => (OutOfFuel, s')
      end.

Definition _copy_password (a : app) : app :=
  match password_display a with
  | [] => a
  | _ :: _ =>
      open_dialog (clipboard_setText a (password_display a)) Information
  end.

(** The widgets as the [_create_*] methods leave them; [clip] is what
    the system clipboard holds when the window opens. *)
Definition widgets (clip : str) : app :=
  {| length_spinbox := 16;
     use_lowercase := true;
     use_uppercase := true;
     use_digits := true;
     use_special := true;
     special_chars_edit := of_literal "!@#$%^&*()-_=+";
     password_display := [];
     clipboard := clip;
     dialogs := [] |}.

(** [__init__] builds the widgets and generates a first password. *)
Definition __init__ (clip : str) (fuel : nat) : M app :=
  _generate_password fuel (widgets clip).

End PasswordGeneratorApp.

Import PasswordGeneratorApp.

(** At least one of the four check boxes is checked. *)
Definition some_class_checked (a : app) : bool :=
  use_lowercase a || use_uppercase a || use_digits a || use_special a.

(** ** The model on concrete inputs *)

Example digit_chars_codes :
  digit_chars = [48; 49; 50; 51; 52; 53; 54; 55; 56; 57]%N.
Proof. reflexivity. Qed.

Example class_lengths :
  length lowercase_chars = 26 /\ length uppercase_chars = 26
  /\ length digit_chars = 10 /\ length special_chars = 30.
Proof. repeat split. Qed.

(** The backslash and the double quote of the source literal. *)
Example special_chars_escapes :
  nth 18 special_chars 0%N = 92%N /\ nth 23 special_chars 0%N = 34%N.
Proof. split; reflexivity. Qed.

Example all_flags_false_raises :
  generate_password 12 false false false false None 3 (replay [])
  = (Raise ValueError, replay []).
Proof. reflexivity. Qed.

(** Lowercase and digits at length 8: the first draw has no digit and
    is redrawn. *)
Example lowercase_digits_redraw :
  generate_password 8 true false true false None 1
    (replay [0; 1; 2; 3; 4; 5; 6; 7; 0; 1; 2; 3; 26; 27; 28; 29])
  = (Ok (of_literal "abcd0123"),
     skip 16
       (replay [0; 1; 2; 3; 4; 5; 6; 7; 0; 1; 2; 3; 26; 27; 28; 29])).
Proof. reflexivity. Qed.

Example lowercase_digits_needs_fuel :
  fst (generate_password 8 true false true false None 0
         (replay [0; 1; 2; 3; 4; 5; 6; 7; 0; 1; 2; 3; 26; 27; 28; 29]))
  = OutOfFuel.
Proof. reflexivity. Qed.

(** ** The random source *)

Lemma skip_add (a b : nat) (s : rng) : skip (a + b) s = skip b (skip a s).
Proof.
  revert s; induction a as [|a IH]; intros s; simpl; [reflexivity|apply IH].
Qed.

Lemma cursor_skip (n : nat) (s : rng) : cursor (skip n s) = cursor s + n.
Proof.
  revert s; induction n as [|n IH]; intros s; simpl.
  - lia.
  - rewrite IH; simpl; lia.
Qed.

Lemma tape_skip (n : nat) (s : rng) : tape (skip n s) = tape s.
Proof.
  revert s; induction n as [|n IH]; intros s; simpl; [reflexivity|].
  now rewrite IH.
Qed.

Lemma pick_in (pool : str) (s : rng) : pool <> [] -> In (pick pool s) pool.
Proof.
  destruct pool as [|c0 rest]; [congruence|intros _].
  unfold pick. apply nth_In. apply Nat.mod_upper_bound. discriminate.
Qed.

Lemma choice_pick (pool : str) (s : rng) :
  pool <> [] -> secrets.choice pool s = (Ok (pick pool s), advance s).
Proof.
  destruct pool as [|c0 rest]; [congruence|intros _]. reflexivity.
Qed.

Lemma sample_length (pool : str) (n : nat) (s : rng) :
  length (sample pool n s) = n.
Proof.
  revert s; induction n as [|n IH]; intros s; simpl; [reflexivity|].
  now rewrite IH.
Qed.

Lemma sample_in (pool : str) (n : nat) (s : rng) :
  pool <> [] -> Forall (fun c => In c pool) (sample pool n s).
Proof.
  intros Hne; revert s; induction n as [|n IH]; intros s; simpl.
  - constructor.
  - constructor; [now apply pick_in|apply IH].
Qed.

(** One draw of a password never fails on a non-empty pool: it returns
    [sample] and moves the cursor by the number of characters. *)
Lemma join_choices_sample (pool : str) (n : nat) (s : rng) :
  pool <> [] -> join_choices pool n s = (Ok (sample pool n s), skip n s).
Proof.
  intros Hne; revert s; induction n as [|n IH]; intros s; simpl.
  - reflexivity.
  - unfold bind at 1. rewrite (choice_pick _ _ Hne).
    unfold bind. rewrite IH. reflexivity.
Qed.

(** ** The classes and the requirement check *)

Lemma any_char_in_iff (set password : str) :
  any (fun c => char_in c set) password = true
  <-> exists c, In c password /\ In c set.
Proof.
  unfold any, char_in. rewrite existsb_exists. split.
  - intros (c & Hc & Hex). apply existsb_exists in Hex.
    destruct Hex as (d & Hd & Heq). apply N.eqb_eq in Heq. subst d.
    now exists c.
  - intros (c & Hc & Hs). exists c. split; [assumption|].
    apply existsb_exists. exists c. split; [assumption|apply N.eqb_refl].
Qed.

Lemma any_nil (set : str) : any (fun c => char_in c set) [] = false.
Proof. reflexivity. Qed.

Section Requirements.

Variables ul uu ud us : bool.
Variable cs : option str.

Lemma meets_requirements_iff (password : str) :
  _password_meets_requirements ul uu ud us cs password = true
  <-> (ul = true -> exists c, In c password /\ In c lowercase_chars)
      /\ (uu = true -> exists c, In c password /\ In c uppercase_chars)
      /\ (ud = true -> exists c, In c password /\ In c digit_chars)
      /\ (us = true -> exists c, In c password /\ In c (special_set cs)).
Proof.
  unfold _password_meets_requirements. cbv zeta.
  change (match cs with Some (c :: rest) => c :: rest | _ => special_chars end)
    with (special_set cs).
  rewrite <- !any_char_in_iff.
  destruct (any _ password), (any _ password), (any _ password),
    (any _ password), ul, uu, ud, us; simpl;
    intuition congruence.
Qed.

Lemma in_chars_iff (c : char) :
  In c (chars ul uu ud us cs)
  <-> (ul = true /\ In c lowercase_chars)
      \/ (uu = true /\ In c uppercase_chars)
      \/ (ud = true /\ In c digit_chars)
      \/ (us = true /\ In c (special_set cs)).
Proof.
  unfold chars. cbv zeta.
  assert (Hsp : forall pre : str,
             In c (match cs with
                   | Some (c0 :: rest) => pre ++ c0 :: rest
                   | _ => pre ++ special_chars
                   end) <-> In c pre \/ In c (special_set cs)).
  { intros pre. unfold special_set.
    destruct cs as [[|c0 rest]|]; apply in_app_iff. }
  destruct ul, uu, ud, us; rewrite ?Hsp, ?in_app_iff, ?app_nil_l;
    simpl (In c []); intuition congruence.
Qed.

Lemma chars_nil_iff :
  chars ul uu ud us cs = []
  <-> ul = false /\ uu = false /\ ud = false /\ us = false.
Proof.
  split.
  - intros Hnil.
    assert (Hno : forall c, ~ In c (chars ul uu ud us cs))
      by (intros c; rewrite Hnil; apply in_nil).
    assert (Hsp : In (hd 0%N (special_set cs)) (special_set cs)).
    { unfold special_set. destruct cs as [[|c0 rest]|]; simpl; auto. }
    repeat split; apply not_true_is_false; intros Hflag.
    + apply (Hno 97%N), in_chars_iff. left. split; [assumption|].
      simpl; auto.
    + apply (Hno 65%N), in_chars_iff. right; left. split; [assumption|].
      simpl; auto.
    + apply (Hno 48%N), in_chars_iff. right; right; left.
      split; [assumption|]. simpl; auto.
    + apply (Hno (hd 0%N (special_set cs))), in_chars_iff.
      right; right; right. split; assumption.
  - intros (-> & -> & -> & ->). reflexivity.
Qed.

End Requirements.


(** ** The rejection loop *)

Section Loop.

Variable length : Z.
Variables ul uu ud us : bool.
Variable cs : option str.

Let n : nat := range_len length.
Let pool : str := chars ul uu ud us cs.
Let meets : str -> bool := _password_meets_requirements ul uu ud us cs.
Let loop := regenerate length ul uu ud us cs.
Let generate := generate_password length ul uu ud us cs.

(** The string drawn by the [k]-th draw of a call started at [s];
    draw 0 is the one before the loop. *)
Let attempt (k : nat) (s : rng) : str := sample pool n (skip (k * n) s).

Lemma generate_password_empty (fuel : nat) (s : rng) :
  pool = [] -> generate fuel s = (Raise ValueError, s).
Proof.
  unfold generate, generate_password, pool. intros ->. reflexivity.
Qed.

Lemma generate_password_unfold (fuel : nat) (s : rng) :
  pool <> [] ->
  generate fuel s
  = loop fuel (sample pool n s) (meets (sample pool n s)) (skip n s).
Proof.
  intros Hne. unfold generate, generate_password.
  pose proof (join_choices_sample pool n s Hne) as Hdraw.
  unfold pool, n in Hdraw, Hne.
  destruct (chars ul uu ud us cs) as [|c0 rest] eqn:E; [congruence|].
  unfold bind. rewrite Hdraw. reflexivity.
Qed.

Lemma loop_accept (fuel : nat) (password : str) (s : rng) :
  loop fuel password true s = (Ok password, s).
Proof. destruct fuel; reflexivity. Qed.

Lemma loop_redraw (fuel : nat) (password : str) (s : rng) :
  pool <> [] ->
  loop (S fuel) password false s
  = loop fuel (sample pool n s) (meets (sample pool n s)) (skip n s).
Proof.
  intros Hne. unfold loop. simpl. unfold bind.
  fold pool. fold n. rewrite (join_choices_sample pool n s Hne).
  reflexivity.
Qed.

(** Whatever the loop returns passed the check, and is the string it
    was entered with or one it drew. *)
Lemma loop_ok_inv (fuel : nat) :
  pool <> [] ->
  forall password s pw s',
    loop fuel password (meets password) s = (Ok pw, s') ->
    meets pw = true /\ (pw = password \/ exists t, pw = sample pool n t).
Proof.
  intros Hne. induction fuel as [|fuel IH]; intros password s pw s' Hrun;
    destruct (meets password) eqn:Hm.
  - rewrite loop_accept in Hrun. injection Hrun as <- _. auto.
  - discriminate Hrun.
  - rewrite loop_accept in Hrun. injection Hrun as <- _. auto.
  - rewrite loop_redraw in Hrun by assumption.
    apply IH in Hrun. destruct Hrun as [Hok [->|Hex]]; eauto.
Qed.

Lemma generate_ok_inv (fuel : nat) (s : rng) (pw : str) (s' : rng) :
  generate fuel s = (Ok pw, s') ->
  pool <> [] /\ meets pw = true /\ exists t, pw = sample pool n t.
Proof.
  intros Hrun.
  assert (Hne : pool <> []).
  { intros Hnil. rewrite generate_password_empty in Hrun by assumption.
    discriminate Hrun. }
  rewrite generate_password_unfold in Hrun by assumption.
  apply loop_ok_inv in Hrun; [|assumption].
  destruct Hrun as [Hok [->|Hex]]; eauto.
Qed.

(** More fuel never changes a returned password. *)
Lemma loop_fuel_mono (fuel : nat) :
  pool <> [] ->
  forall password has s pw s',
    loop fuel password has s = (Ok pw, s') ->
    loop (S fuel) password has s = (Ok pw, s').
Proof.
  intros Hne. induction fuel as [|fuel IH]; intros password has s pw s' Hrun;
    destruct has.
  - now rewrite loop_accept in *.
  - discriminate Hrun.
  - now rewrite loop_accept in *.
  - rewrite loop_redraw in * by assumption. now apply IH.
Qed.

Lemma generate_fuel_mono (fuel fuel' : nat) (s : rng) (pw : str) (s' : rng) :
  fuel <= fuel' ->
  generate fuel s = (Ok pw, s') -> generate fuel' s = (Ok pw, s').
Proof.
  intros Hle Hrun.
  assert (Hne : pool <> []) by (eapply generate_ok_inv; eassumption).
  rewrite generate_password_unfold in * by assumption.
  induction Hle as [|m Hle IH]; [assumption|].
  now apply loop_fuel_mono.
Qed.

(** When no string the pool can yield passes the check, the loop
    uses up any amount of fuel. *)
Lemma loop_stuck :
  pool <> [] ->
  (forall t, meets (sample pool n t) = false) ->
  forall fuel password s,
    loop fuel password false s = (OutOfFuel, skip (fuel * n) s).
Proof.
  intros Hne Hrej. induction fuel as [|fuel IH]; intros password s.
  - reflexivity.
  - rewrite loop_redraw by assumption. rewrite Hrej, IH.
    simpl. now rewrite skip_add.
Qed.

Lemma generate_stuck (fuel : nat) (s : rng) :
  pool <> [] ->
  (forall t, meets (sample pool n t) = false) ->
  generate fuel s = (OutOfFuel, skip (S fuel * n) s).
Proof.
  intros Hne Hrej. rewrite generate_password_unfold by assumption.
  rewrite Hrej, loop_stuck by assumption.
  simpl. rewrite skip_add. now rewrite <- skip_add, Nat.add_comm.
Qed.

(** Total correctness of the loop: the call returns the first drawn
    string that passes the check, as soon as the fuel covers the
    redraws before it. *)
Lemma generate_first_accepted (k : nat) :
  pool <> [] ->
  forall fuel s,
    k <= fuel ->
    (forall j, j < k -> meets (attempt j s) = false) ->
    meets (attempt k s) = true ->
    generate fuel s = (Ok (attempt k s), skip (S k * n) s).
Proof.
  intros Hne fuel s Hle Hrej Hacc.
  rewrite generate_password_unfold by assumption.
  revert fuel s Hle Hrej Hacc.
  induction k as [|k IH]; intros fuel s Hle Hrej Hacc.
  - unfold attempt in Hacc. simpl in Hacc. rewrite Hacc, loop_accept.
    unfold attempt. simpl. now rewrite Nat.add_0_r.
  - destruct fuel as [|fuel]; [lia|].
    pose proof (Hrej 0 ltac:(lia)) as H0.
    unfold attempt in H0. simpl in H0. rewrite H0.
    rewrite loop_redraw by assumption.
    assert (Hshift : forall j, attempt j (skip n s) = attempt (S j) s).
    { intros j. unfold attempt. simpl. now rewrite skip_add. }
    rewrite (IH fuel (skip n s)).
    + rewrite Hshift. f_equal. rewrite <- skip_add. reflexivity.
    + lia.
    + intros j Hj. rewrite Hshift. apply Hrej. lia.
    + now rewrite Hshift.
Qed.

(** And until some drawn string passes, the call is still looping. *)
Lemma generate_all_rejected (fuel : nat) (s : rng) :
  pool <> [] ->
  (forall j, j <= fuel -> meets (attempt j s) = false) ->
  generate fuel s = (OutOfFuel, skip (S fuel * n) s).
Proof.
  intros Hne.
  rewrite generate_password_unfold by assumption.
  revert s. induction fuel as [|fuel IH]; intros s Hrej.
  - pose proof (Hrej 0 ltac:(lia)) as H0.
    unfold attempt in H0. simpl in H0. rewrite H0.
    simpl. now rewrite Nat.add_0_r.
  - pose proof (Hrej 0 ltac:(lia)) as H0.
    unfold attempt in H0. simpl in H0. rewrite H0.
    rewrite loop_redraw by assumption.
    rewrite IH.
    + rewrite <- skip_add. reflexivity.
    + intros j Hj. specialize (Hrej (S j) ltac:(lia)).
      unfold attempt in *. simpl in Hrej. now rewrite skip_add in Hrej.
Qed.

(** On a non-empty pool nothing raises. *)
Lemma loop_no_raise (fuel : nat) :
  pool <> [] ->
  forall password has s e s', loop fuel password has s <> (Raise e, s').
Proof.
  intros Hne. induction fuel as [|fuel IH]; intros password has s e s';
    destruct has.
  - rewrite loop_accept. discriminate.
  - discriminate.
  - rewrite loop_accept. discriminate.
  - rewrite loop_redraw by assumption. apply IH.
Qed.

Lemma generate_no_raise (fuel : nat) (s : rng) (e : exn) (s' : rng) :
  pool <> [] -> generate fuel s <> (Raise e, s').
Proof.
  intros Hne. rewrite generate_password_unfold by assumption.
  now apply loop_no_raise.
Qed.

End Loop.

(** ** The classes are pairwise disjoint *)

Lemma disjointb_sound (a b : str) :
  disjointb a b = true -> forall c, In c a -> In c b -> False.
Proof.
  unfold disjointb. rewrite forallb_forall. intros Hd c Ha Hb.
  specialize (Hd c Ha). apply negb_true_iff in Hd.
  assert (Hin : char_in c b = true).
  { apply existsb_exists. exists c. split; [assumption|apply N.eqb_refl]. }
  congruence.
Qed.

Lemma lowercase_uppercase_disjoint (c : char) :
  In c lowercase_chars -> In c uppercase_chars -> False.
Proof. apply disjointb_sound. vm_compute. reflexivity. Qed.

Lemma special_lowercase_disjoint (c : char) :
  In c special_chars -> In c lowercase_chars -> False.
Proof. apply disjointb_sound. vm_compute. reflexivity. Qed.

Lemma special_uppercase_disjoint (c : char) :
  In c special_chars -> In c uppercase_chars -> False.
Proof. apply disjointb_sound. vm_compute. reflexivity. Qed.

Lemma special_digit_disjoint (c : char) :
  In c special_chars -> In c digit_chars -> False.
Proof. apply disjointb_sound. vm_compute. reflexivity. Qed.

Lemma any_flag_pool_nonempty (ul uu ud us : bool) (cs : option str) :
  ul || uu || ud || us = true -> chars ul uu ud us cs <> [].
Proof.
  intros Hany Hnil. apply chars_nil_iff in Hnil.
  destruct Hnil as (-> & -> & -> & ->). discriminate Hany.
Qed.

(** ** Properties of a returned password *)

(** C1. For every configuration with at least one inclusion flag true
    and [length >= 1], whenever [generate_password] returns a password,
    the password holds at least one character of the class of every
    flag that is set; for the special class that is the custom string
    when one is supplied non-empty, and the built-in default set
    otherwise. *)
Theorem returned_password_covers_required_classes
  (len : Z) (ul uu ud us : bool) (cs : option str)
  (fuel : nat) (s s' : rng) (pw : str) :
  ul || uu || ud || us = true ->
  (1 <= len)%Z ->
  generate_password len ul uu ud us cs fuel s = (Ok pw, s') ->
  (ul = true -> exists c, In c pw /\ In c lowercase_chars)
  /\ (uu = true -> exists c, In c pw /\ In c uppercase_chars)
  /\ (ud = true -> exists c, In c pw /\ In c digit_chars)
  /\ (us = true ->
      forall custom, cs = Some custom -> custom <> [] ->
                     exists c, In c pw /\ In c custom)
  /\ (us = true ->
      cs = None \/ cs = Some [] ->
      exists c, In c pw /\ In c special_chars).
Proof.
  intros _ _ Hrun.
  apply generate_ok_inv in Hrun. destruct Hrun as (_ & Hok & _).
  apply meets_requirements_iff in Hok.
  destruct Hok as (Hl & Hu & Hd & Hs).
  repeat split; try assumption.
  - intros Hus custom -> Hne. specialize (Hs Hus).
    destruct custom as [|c0 rest]; [congruence|exact Hs].
  - intros Hus [-> | ->]; exact (Hs Hus).
Qed.

(** A run whose first draw, aaaa, is rejected and whose second draw
    is returned. *)
Lemma returned_password_covers_required_classes_witness :
  generate_password 4 true true true true None 1
    (replay [0; 0; 0; 0; 0; 26; 52; 62])
  = (Ok (of_literal "aA0!"), skip 8 (replay [0; 0; 0; 0; 0; 26; 52; 62]))
  /\ (exists c, In c (of_literal "aA0!") /\ In c lowercase_chars)
  /\ (exists c, In c (of_literal "aA0!") /\ In c uppercase_chars)
  /\ (exists c, In c (of_literal "aA0!") /\ In c digit_chars)
  /\ (exists c, In c (of_literal "aA0!") /\ In c special_chars).
Proof.
  assert (Hrun : generate_password 4 true true true true None 1
                   (replay [0; 0; 0; 0; 0; 26; 52; 62])
                 = (Ok (of_literal "aA0!"),
                    skip 8 (replay [0; 0; 0; 0; 0; 26; 52; 62])))
    by reflexivity.
  split; [exact Hrun|].
  destruct (returned_password_covers_required_classes
              4 true true true true None 1 _ _ _
              eq_refl ltac:(lia) Hrun) as (Hl & Hu & Hd & _ & Hs).
  repeat split; [apply Hl|apply Hu|apply Hd|apply Hs]; auto.
Defined.

(** C2. For every configuration with at least one inclusion flag true
    and [length >= 1], whenever [generate_password] returns, the
    returned password has exactly [length] characters. *)
Theorem returned_password_has_requested_length
  (len : Z) (ul uu ud us : bool) (cs : option str)
  (fuel : nat) (s s' : rng) (pw : str) :
  ul || uu || ud || us = true ->
  (1 <= len)%Z ->
  generate_password len ul uu ud us cs fuel s = (Ok pw, s') ->
  Z.of_nat (length pw) = len.
Proof.
  intros _ Hlen Hrun.
  apply generate_ok_inv in Hrun. destruct Hrun as (_ & _ & t & ->).
  rewrite sample_length. unfold range_len. lia.
Qed.

Lemma returned_password_has_requested_length_witness :
  generate_password 8 true false true false None 0
    (replay [3; 30; 7; 26; 0; 35; 11; 1])
  = (Ok (of_literal "d4h0a9lb"), skip 8 (replay [3; 30; 7; 26; 0; 35; 11; 1]))
  /\ Z.of_nat (length (of_literal "d4h0a9lb")) = 8%Z.
Proof.
  assert (Hrun : generate_password 8 true false true false None 0
                   (replay [3; 30; 7; 26; 0; 35; 11; 1])
                 = (Ok (of_literal "d4h0a9lb"),
                    skip 8 (replay [3; 30; 7; 26; 0; 35; 11; 1])))
    by reflexivity.
  split; [exact Hrun|].
  exact (returned_password_has_requested_length
           8 true false true false None 0 _ _ _ eq_refl ltac:(lia) Hrun).
Defined.

(** C3. For every configuration with at least one inclusion flag true
    and [length >= 1], every character of the returned password is in
    the pool, and the pool is the union of the ranges of the classes
    whose flag is true, the custom special string standing for the
    default special range when it is supplied non-empty and the
    special flag is true. *)
Theorem returned_password_drawn_from_pool
  (len : Z) (ul uu ud us : bool) (cs : option str)
  (fuel : nat) (s s' : rng) (pw : str) :
  ul || uu || ud || us = true ->
  (1 <= len)%Z ->
  generate_password len ul uu ud us cs fuel s = (Ok pw, s') ->
  forall c, In c pw ->
    In c (chars ul uu ud us cs)
    /\ ((ul = true /\ In c lowercase_chars)
        \/ (uu = true /\ In c uppercase_chars)
        \/ (ud = true /\ In c digit_chars)
        \/ (us = true /\
            ((exists custom, cs = Some custom /\ custom <> []
                             /\ In c custom)
             \/ ((cs = None \/ cs = Some []) /\ In c special_chars)))).
Proof.
  intros _ _ Hrun c Hc.
  apply generate_ok_inv in Hrun. destruct Hrun as (Hne & _ & t & ->).
  pose proof (sample_in _ (range_len len) t Hne) as Hall.
  rewrite Forall_forall in Hall. specialize (Hall c Hc).
  split; [assumption|].
  apply in_chars_iff in Hall.
  destruct Hall as [H|[H|[H|[Hus Hsp]]]]; auto.
  right; right; right. split; [assumption|].
  destruct cs as [[|c0 rest]|]; simpl in Hsp.
  - right. auto.
  - left. exists (c0 :: rest). repeat split; [discriminate|assumption].
  - right. auto.
Qed.

Lemma returned_password_drawn_from_pool_witness :
  generate_password 3 false true false true (Some (of_literal "#~")) 2
    (replay [26; 26; 27; 1; 2; 3; 27; 0; 26])
  = (Ok (of_literal "~A#"), skip 9 (replay [26; 26; 27; 1; 2; 3; 27; 0; 26]))
  /\ forall c, In c (of_literal "~A#") ->
       In c uppercase_chars \/ In c (of_literal "#~").
Proof.
  assert (Hrun : generate_password 3 false true false true
                   (Some (of_literal "#~")) 2
                   (replay [26; 26; 27; 1; 2; 3; 27; 0; 26])
                 = (Ok (of_literal "~A#"),
                    skip 9 (replay [26; 26; 27; 1; 2; 3; 27; 0; 26])))
    by reflexivity.
  split; [exact Hrun|].
  intros c Hc.
  destruct (returned_password_drawn_from_pool
              3 false true false true (Some (of_literal "#~")) 2 _ _ _
              eq_refl ltac:(lia) Hrun c Hc)
    as (_ & [[Hf _]|[[_ Hu]|[[Hf _]|[_ Hsp]]]]).
  - discriminate Hf.
  - left. exact Hu.
  - discriminate Hf.
  - right. destruct Hsp as [(custom & Hcs & _ & Hin)|([Hcs|Hcs] & _)].
    + injection Hcs as <-. exact Hin.
    + discriminate Hcs.
    + discriminate Hcs.
Defined.

(** ** The error branch *)

(** C4. [generate_password] raises (and so returns no password) if
    and only if the assembled pool is empty; it then raises the
    [ValueError] before reading the random source.  The pool is empty
    exactly when all four inclusion flags are false, so with at least
    one flag true the call never raises. *)
Theorem raises_iff_pool_empty
  (len : Z) (ul uu ud us : bool) (cs : option str) :
  (forall fuel s,
      (exists e s',
          generate_password len ul uu ud us cs fuel s = (Raise e, s'))
      <-> chars ul uu ud us cs = [])
  /\ (forall fuel s,
         chars ul uu ud us cs = [] ->
         generate_password len ul uu ud us cs fuel s = (Raise ValueError, s))
  /\ (chars ul uu ud us cs = []
      <-> ul = false /\ uu = false /\ ud = false /\ us = false)
  /\ (ul || uu || ud || us = true ->
      forall fuel s e s',
        generate_password len ul uu ud us cs fuel s <> (Raise e, s')).
Proof.
  split; [|split; [|split]].
  - intros fuel s. split.
    + intros (e & s' & Hrun).
      destruct (chars ul uu ud us cs) as [|c0 rest] eqn:E; [reflexivity|].
      exfalso. revert Hrun. apply generate_no_raise. rewrite E. discriminate.
    + intros Hnil. exists ValueError, s. now apply generate_password_empty.
  - intros fuel s. apply generate_password_empty.
  - apply chars_nil_iff.
  - intros Hany fuel s e s'. apply generate_no_raise.
    now apply any_flag_pool_nonempty.
Qed.

Lemma raises_iff_pool_empty_witness :
  generate_password 12 false false false false (Some (of_literal "#~")) 5
    (replay [1; 2; 3])
  = (Raise ValueError, replay [1; 2; 3])
  /\ generate_password 1 false false false true (Some []) 5 (replay [29])
     = (Ok (of_literal "?"), skip 1 (replay [29])).
Proof.
  destruct (raises_iff_pool_empty
              12 false false false false (Some (of_literal "#~")))
    as (_ & Hraise & _ & _).
  split; [apply Hraise|]; reflexivity.
Defined.

(** ** The custom special string *)

(** C5. With the special flag true and a non-empty custom special
    string supplied, the built-in default special set adds nothing to
    the pool: every character of the returned password that is in no
    other enabled class's range is in the custom string, and the
    password holds no character of the default set that is outside
    both the custom string and every other enabled class's range. *)
Theorem custom_special_replaces_default
  (len : Z) (ul uu ud : bool) (custom : str)
  (fuel : nat) (s s' : rng) (pw : str) :
  custom <> [] ->
  generate_password len ul uu ud true (Some custom) fuel s = (Ok pw, s') ->
  chars ul uu ud true (Some custom)
  = (if ul then lowercase_chars else [])
      ++ (if uu then uppercase_chars else [])
      ++ (if ud then digit_chars else [])
      ++ custom
  /\ (forall c, In c pw ->
        ~ (ul = true /\ In c lowercase_chars) ->
        ~ (uu = true /\ In c uppercase_chars) ->
        ~ (ud = true /\ In c digit_chars) ->
        In c custom)
  /\ ~ (exists c, In c pw /\ In c special_chars /\ ~ In c custom
                  /\ ~ (ul = true /\ In c lowercase_chars)
                  /\ ~ (uu = true /\ In c uppercase_chars)
                  /\ ~ (ud = true /\ In c digit_chars))
  /\ (forall c, In c pw -> In c special_chars -> In c custom).
Proof.
  intros Hcust Hrun.
  assert (Hmem : forall c, In c pw ->
             (ul = true /\ In c lowercase_chars)
             \/ (uu = true /\ In c uppercase_chars)
             \/ (ud = true /\ In c digit_chars)
             \/ In c custom).
  { intros c Hc. apply generate_ok_inv in Hrun.
    destruct Hrun as (Hne & _ & t & ->).
    pose proof (sample_in _ (range_len len) t Hne) as Hall.
    rewrite Forall_forall in Hall. specialize (Hall c Hc).
    apply in_chars_iff in Hall.
    destruct custom as [|c0 rest]; [congruence|].
    simpl special_set in Hall. tauto. }
  split; [|split; [|split]].
  - destruct custom as [|c0 rest]; [congruence|].
    destruct ul, uu, ud; unfold chars; cbv zeta;
      rewrite ?app_nil_l, <- ?app_assoc; reflexivity.
  - intros c Hc Hl Hu Hd. destruct (Hmem c Hc); tauto.
  - intros (c & Hc & _ & Hout & Hl & Hu & Hd).
    destruct (Hmem c Hc); tauto.
  - intros c Hc Hsp.
    destruct (Hmem c Hc) as [[_ H]|[[_ H]|[[_ H]|H]]].
    + exfalso. eapply special_lowercase_disjoint; eassumption.
    + exfalso. eapply special_uppercase_disjoint; eassumption.
    + exfalso. eapply special_digit_disjoint; eassumption.
    + assumption.
Qed.

(** The custom string is !x: the password may hold the default
    special character ! only because the custom string has it. *)
Lemma custom_special_replaces_default_witness :
  generate_password 3 false false true true (Some (of_literal "!x")) 0
    (replay [10; 4; 11])
  = (Ok (of_literal "!4x"), skip 3 (replay [10; 4; 11]))
  /\ forall c, In c (of_literal "!4x") -> In c special_chars ->
               In c (of_literal "!x").
Proof.
  assert (Hrun : generate_password 3 false false true true
                   (Some (of_literal "!x")) 0 (replay [10; 4; 11])
                 = (Ok (of_literal "!4x"), skip 3 (replay [10; 4; 11])))
    by reflexivity.
  split; [exact Hrun|].
  apply (custom_special_replaces_default
           3 false false true (of_literal "!x") 0 _ _ _
           ltac:(discriminate) Hrun).
Defined.

(** C6. With the special flag true and the custom special string
    absent or empty, [generate_password] behaves as if the built-in
    default special set had been passed: the default set is appended
    to the pool, the special-presence requirement is checked against
    the default set, and the outcome is the same for every fuel and
    random source. *)
Theorem missing_custom_special_means_default
  (len : Z) (ul uu ud : bool) (cs : option str) :
  cs = None \/ cs = Some [] ->
  chars ul uu ud true cs
  = (if ul then lowercase_chars else [])
      ++ (if uu then uppercase_chars else [])
      ++ (if ud then digit_chars else [])
      ++ special_chars
  /\ chars ul uu ud true cs = chars ul uu ud true (Some special_chars)
  /\ (forall pw,
         _password_meets_requirements ul uu ud true cs pw = true
         <-> (ul = true -> exists c, In c pw /\ In c lowercase_chars)
             /\ (uu = true -> exists c, In c pw /\ In c uppercase_chars)
             /\ (ud = true -> exists c, In c pw /\ In c digit_chars)
             /\ (exists c, In c pw /\ In c special_chars))
  /\ (forall pw,
         _password_meets_requirements ul uu ud true cs pw
         = _password_meets_requirements ul uu ud true (Some special_chars) pw)
  /\ (forall fuel s,
         generate_password len ul uu ud true cs fuel s
         = generate_password len ul uu ud true (Some special_chars) fuel s).
Proof.
  intros Hcs.
  assert (Hset : special_set cs = special_chars)
    by (destruct Hcs as [-> | ->]; reflexivity).
  split; [|split; [|split; [|split]]].
  - destruct Hcs as [-> | ->]; destruct ul, uu, ud; unfold chars; cbv zeta;
      rewrite ?app_nil_l, <- ?app_assoc; reflexivity.
  - destruct Hcs as [-> | ->]; reflexivity.
  - intros pw. rewrite meets_requirements_iff, Hset. intuition.
  - destruct Hcs as [-> | ->]; reflexivity.
  - destruct Hcs as [-> | ->]; reflexivity.
Qed.

Lemma missing_custom_special_means_default_witness :
  generate_password 2 false false true true (Some []) 1
    (replay [0; 1; 39; 9])
  = generate_password 2 false false true true (Some special_chars) 1
      (replay [0; 1; 39; 9])
  /\ generate_password 2 false false true true (Some []) 1
       (replay [0; 1; 39; 9])
     = (Ok (of_literal "?9"), skip 4 (replay [0; 1; 39; 9])).
Proof.
  destruct (missing_custom_special_means_default
              2 false false true (Some []) (or_intror eq_refl))
    as (_ & _ & _ & _ & Hsame).
  split; [apply Hsame|reflexivity].
Defined.

(** C9. With the special flag false, [custom_special] has no effect:
    for any two values of it and the same length, flags and random
    draws, the pool, the acceptance predicate and the outcome (the
    returned password or the error) are the same. *)
Theorem custom_special_ignored_without_special_flag
  (len : Z) (ul uu ud : bool) (cs1 cs2 : option str) :
  chars ul uu ud false cs1 = chars ul uu ud false cs2
  /\ (forall pw,
         _password_meets_requirements ul uu ud false cs1 pw
         = _password_meets_requirements ul uu ud false cs2 pw)
  /\ (forall fuel s,
         generate_password len ul uu ud false cs1 fuel s
         = generate_password len ul uu ud false cs2 fuel s).
Proof.
  repeat split.
Qed.

(** ** Termination of the rejection loop *)

(** C7. For [length = 1] with the lowercase, uppercase and digit flags
    all true, no string of one character passes
    [_password_meets_requirements], so for every random source the
    loop of [generate_password] is still running after any number of
    redraws: the call never returns. *)
Theorem length_one_three_classes_never_returns
  (us : bool) (cs : option str) :
  (forall pw, length pw = 1 ->
              _password_meets_requirements true true true us cs pw = false)
  /\ (forall fuel s,
         generate_password 1 true true true us cs fuel s
         = (OutOfFuel, skip (S fuel) s)).
Proof.
  assert (Hrej : forall pw, length pw = 1 ->
            _password_meets_requirements true true true us cs pw = false).
  { intros pw Hlen. apply not_true_is_false. intros Hok.
    apply meets_requirements_iff in Hok.
    destruct Hok as (Hl & Hu & _).
    destruct (Hl eq_refl) as (a & Ha & Hlow).
    destruct (Hu eq_refl) as (b & Hb & Hupp).
    destruct pw as [|c [|d rest]]; try discriminate Hlen.
    destruct Ha as [<-|[]]. destruct Hb as [<-|[]].
    eapply lowercase_uppercase_disjoint; eassumption. }
  split; [exact Hrej|].
  intros fuel s.
  rewrite generate_stuck.
  - change (range_len 1) with 1. now rewrite Nat.mul_1_r.
  - now apply any_flag_pool_nonempty.
  - intros t. apply Hrej. apply sample_length.
Qed.

Lemma length_one_three_classes_never_returns_witness :
  _password_meets_requirements true true true false None (of_literal "q")
  = false
  /\ generate_password 1 true true true false None 1000 (replay [16; 42; 61])
     = (OutOfFuel, skip 1001 (replay [16; 42; 61])).
Proof.
  destruct (length_one_three_classes_never_returns false None)
    as (Hrej & Hloop).
  split; [apply Hrej; reflexivity|apply Hloop].
Defined.

(** C8. For [length = 4] with only the digit flag true,
    [generate_password] returns for every random source: the pool is
    the digits alone, the first drawn string passes the check, no
    redraw takes place (no fuel is needed and exactly four draws are
    read), and the output is four digit characters. *)
Theorem four_digits_returns_first_draw
  (cs : option str) (fuel : nat) (s : rng) :
  chars false false true false cs = digit_chars
  /\ exists pw s',
      generate_password 4 false false true false cs fuel s = (Ok pw, s')
      /\ generate_password 4 false false true false cs 0 s = (Ok pw, s')
      /\ cursor s' = cursor s + 4
      /\ length pw = 4
      /\ Forall (fun c => In c digit_chars) pw.
Proof.
  split; [reflexivity|].
  assert (Hne : chars false false true false cs <> []) by discriminate.
  assert (Hacc : _password_meets_requirements false false true false cs
                   (sample digit_chars 4 s) = true).
  { apply meets_requirements_iff. repeat split; try discriminate.
    intros _. exists (pick digit_chars s). split.
    - left. reflexivity.
    - apply pick_in. discriminate. }
  exists (sample digit_chars 4 s), (skip 4 s).
  split; [|split; [|split; [|split]]].
  - apply (generate_first_accepted 4 false false true false cs 0 Hne fuel s).
    + lia.
    + intros j Hj. lia.
    + exact Hacc.
  - apply (generate_first_accepted 4 false false true false cs 0 Hne 0 s).
    + lia.
    + intros j Hj. lia.
    + exact Hacc.
  - apply cursor_skip.
  - apply sample_length.
  - apply sample_in. discriminate.
Qed.

(** C10. [generate_password] does not validate [length]: for every
    [length <= 0] with at least one inclusion flag true, each draw
    yields the empty string without reading the random source, the
    empty string fails the requirement check, and the loop redraws it
    for any amount of fuel: the call never returns. *)
Theorem nonpositive_length_never_returns
  (len : Z) (ul uu ud us : bool) (cs : option str) :
  (len <= 0)%Z ->
  ul || uu || ud || us = true ->
  (forall s,
      join_choices (chars ul uu ud us cs) (range_len len) s = (Ok [], s))
  /\ _password_meets_requirements ul uu ud us cs [] = false
  /\ (forall fuel s,
         generate_password len ul uu ud us cs fuel s = (OutOfFuel, s)).
Proof.
  intros Hlen Hany.
  assert (Hzero : range_len len = 0) by (unfold range_len; lia).
  assert (Hrej : _password_meets_requirements ul uu ud us cs [] = false).
  { apply not_true_is_false. intros Hok.
    apply meets_requirements_iff in Hok.
    destruct Hok as (Hl & Hu & Hd & Hs).
    destruct ul; [destruct (Hl eq_refl) as (c & [] & _)|].
    destruct uu; [destruct (Hu eq_refl) as (c & [] & _)|].
    destruct ud; [destruct (Hd eq_refl) as (c & [] & _)|].
    destruct us; [destruct (Hs eq_refl) as (c & [] & _)|].
    discriminate Hany. }
  split; [|split].
  - intros s. rewrite Hzero. reflexivity.
  - exact Hrej.
  - intros fuel s. rewrite generate_stuck.
    + rewrite Hzero, Nat.mul_0_r. reflexivity.
    + now apply any_flag_pool_nonempty.
    + intros t. rewrite Hzero. exact Hrej.
Qed.

Lemma nonpositive_length_never_returns_witness :
  generate_password (-3) true false true false None 1000 (replay [5; 6])
  = (OutOfFuel, replay [5; 6])
  /\ generate_password 0 false false false true (Some (of_literal "#")) 7
       (replay [5; 6])
     = (OutOfFuel, replay [5; 6]).
Proof.
  split.
  - apply (nonpositive_length_never_returns (-3) true false true false None);
      [lia|reflexivity].
  - apply (nonpositive_length_never_returns
             0 false false false true (Some (of_literal "#")));
      [lia|reflexivity].
Defined.

(** * Further properties of the generator *)

(** ** Which draw is returned *)

Lemma first_accepted_or_none (p : nat -> bool) (bound : nat) :
  (forall j, j <= bound -> p j = false)
  \/ exists k, k <= bound /\ p k = true /\ forall j, j < k -> p j = false.
Proof.
  induction bound as [|bound [Hnone|(k & Hk & Hacc & Hrej)]].
  - destruct (p 0) eqn:E.
    + right. exists 0. repeat split; [lia|assumption|intros j Hj; lia].
    + left. intros j Hj. now replace j with 0 by lia.
  - destruct (p (S bound)) eqn:E.
    + right. exists (S bound). repeat split; [lia|assumption|].
      intros j Hj. apply Hnone. lia.
    + left. intros j Hj.
      destruct (Nat.eq_dec j (S bound)) as [->|Hne]; [assumption|].
      apply Hnone. lia.
  - right. exists k. repeat split; [lia|assumption|assumption].
Qed.

Lemma skip_next_draw (k n : nat) (s : rng) :
  skip n (skip (k * n) s) = skip (S k * n) s.
Proof. rewrite <- skip_add. f_equal. simpl. lia. Qed.

(** X1. On a non-empty pool, [generate_password] returns [pw] exactly
    when [pw] is the first drawn string that passes the check: some
    draw number [k] within the fuel yields [pw], [pw] passes, and every
    earlier draw yielded a string that fails.  Each draw reads
    [length] cells, so [(k + 1) * length] cells are read in all. *)
Theorem returns_exactly_first_accepted_draw
  (len : Z) (ul uu ud us : bool) (cs : option str)
  (fuel : nat) (s s' : rng) (pw : str) :
  chars ul uu ud us cs <> [] ->
  generate_password len ul uu ud us cs fuel s = (Ok pw, s')
  <-> exists k,
      k <= fuel
      /\ join_choices (chars ul uu ud us cs) (range_len len)
           (skip (k * range_len len) s) = (Ok pw, s')
      /\ cursor s' = cursor s + (k + 1) * range_len len
      /\ _password_meets_requirements ul uu ud us cs pw = true
      /\ forall j pwj sj,
          j < k ->
          join_choices (chars ul uu ud us cs) (range_len len)
            (skip (j * range_len len) s) = (Ok pwj, sj) ->
          _password_meets_requirements ul uu ud us cs pwj = false.
Proof.
  intros Hne. split.
  - intros Hrun.
    destruct (first_accepted_or_none
                (fun j => _password_meets_requirements ul uu ud us cs
                            (sample (chars ul uu ud us cs) (range_len len)
                               (skip (j * range_len len) s))) fuel)
      as [Hnone|(k & Hk & Hacc & Hrej)].
    + rewrite (generate_all_rejected len ul uu ud us cs fuel s Hne Hnone)
        in Hrun. discriminate Hrun.
    + rewrite (generate_first_accepted len ul uu ud us cs k Hne fuel s
                 Hk Hrej Hacc) in Hrun.
      injection Hrun as <- <-.
      exists k. repeat split.
      * assumption.
      * rewrite join_choices_sample by assumption.
        now rewrite skip_next_draw.
      * rewrite cursor_skip. f_equal. simpl. lia.
      * assumption.
      * intros j pwj sj Hj Hdraw.
        rewrite join_choices_sample in Hdraw by assumption.
        injection Hdraw as <- _. now apply Hrej.
  - intros (k & Hk & Hdraw & _ & Hacc & Hrej).
    rewrite join_choices_sample in Hdraw by assumption.
    injection Hdraw as <- <-.
    rewrite skip_next_draw.
    apply generate_first_accepted; try assumption.
    intros j Hj.
    apply (Hrej j _ (skip (range_len len) (skip (j * range_len len) s)) Hj).
    now apply join_choices_sample.
Qed.

(** The second draw is returned: the first one, aaaa, fails. *)
Lemma returns_exactly_first_accepted_draw_witness :
  exists k,
    k <= 1
    /\ join_choices (chars true true true true None) (range_len 4)
         (skip (k * range_len 4) (replay [0; 0; 0; 0; 0; 26; 52; 62]))
       = (Ok (of_literal "aA0!"),
          skip 8 (replay [0; 0; 0; 0; 0; 26; 52; 62]))
    /\ cursor (skip 8 (replay [0; 0; 0; 0; 0; 26; 52; 62]))
       = cursor (replay [0; 0; 0; 0; 0; 26; 52; 62]) + (k + 1) * range_len 4
    /\ _password_meets_requirements true true true true None
         (of_literal "aA0!") = true
    /\ forall j pwj sj,
        j < k ->
        join_choices (chars true true true true None) (range_len 4)
          (skip (j * range_len 4) (replay [0; 0; 0; 0; 0; 26; 52; 62]))
        = (Ok pwj, sj) ->
        _password_meets_requirements true true true true None pwj = false.
Proof.
  apply (proj1 (returns_exactly_first_accepted_draw
                  4 true true true true None 1
                  (replay [0; 0; 0; 0; 0; 26; 52; 62])
                  (skip 8 (replay [0; 0; 0; 0; 0; 26; 52; 62]))
                  (of_literal "aA0!") ltac:(discriminate))).
  reflexivity.
Defined.

(** ** Which strings can be returned *)

Lemma index_of_lt (c : char) (pool : str) :
  In c pool -> index_of c pool < length pool.
Proof.
  induction pool as [|d rest IH]; simpl; [tauto|].
  intros Hin. destruct (N.eqb c d) eqn:E; [lia|].
  apply N.eqb_neq in E. destruct Hin as [->|Hin]; [congruence|].
  specialize (IH Hin). lia.
Qed.

Lemma nth_index_of (c d0 : char) (pool : str) :
  In c pool -> nth (index_of c pool) pool d0 = c.
Proof.
  induction pool as [|d rest IH]; simpl; [tauto|].
  intros Hin. destruct (N.eqb c d) eqn:E.
  - apply N.eqb_eq in E. now subst.
  - apply N.eqb_neq in E. destruct Hin as [->|Hin]; [congruence|].
    now apply IH.
Qed.

Lemma pick_index_of (c : char) (pool : str) (s : rng) :
  In c pool -> tape s (cursor s) = index_of c pool -> pick pool s = c.
Proof.
  intros Hin Hcell. destruct pool as [|c0 rest]; [destruct Hin|].
  unfold pick. rewrite Hcell.
  rewrite Nat.mod_small by now apply index_of_lt.
  now apply nth_index_of.
Qed.

(** A source whose next cells hold the positions of the characters of
    [password] in the pool yields [password]. *)
Lemma sample_spells (pool password : str) :
  Forall (fun c => In c pool) password ->
  forall s,
    (forall i, i < length password ->
               tape s (cursor s + i) = nth i (draws_for pool password) 0) ->
    sample pool (length password) s = password.
Proof.
  induction 1 as [|c rest Hc Hrest IH]; intros s Hcells; simpl.
  - reflexivity.
  - f_equal.
    + apply pick_index_of; [assumption|].
      specialize (Hcells 0 ltac:(simpl; lia)).
      now rewrite Nat.add_0_r in Hcells.
    + apply IH. intros i Hi.
      specialize (Hcells (S i) ltac:(simpl; lia)).
      simpl in *. now rewrite Nat.add_succ_r in Hcells.
Qed.

Lemma sample_replay_draws_for (pool password : str) :
  Forall (fun c => In c pool) password ->
  sample pool (length password) (replay (draws_for pool password))
  = password.
Proof.
  intros Hall. apply sample_spells; [assumption|].
  intros i _. reflexivity.
Qed.

Lemma generate_returns_spelled
      (len : Z) (ul uu ud us : bool) (cs : option str) (pw : str)
      (fuel : nat) :
  chars ul uu ud us cs <> [] ->
  range_len len = length pw ->
  Forall (fun c => In c (chars ul uu ud us cs)) pw ->
  _password_meets_requirements ul uu ud us cs pw = true ->
  generate_password len ul uu ud us cs fuel
    (replay (draws_for (chars ul uu ud us cs) pw))
  = (Ok pw, skip (length pw) (replay (draws_for (chars ul uu ud us cs) pw))).
Proof.
  intros Hne Hn Hall Hacc.
  rewrite generate_password_unfold by assumption.
  rewrite Hn, (sample_replay_draws_for _ _ Hall), Hacc.
  apply loop_accept.
Qed.

Lemma char_in_sound (c : char) (set : str) :
  char_in c set = true -> In c set.
Proof.
  unfold char_in. rewrite existsb_exists. intros (d & Hd & Heq).
  apply N.eqb_eq in Heq. now subst.
Qed.

Lemma all_char_in_sound (pool password : str) :
  forallb (fun c => char_in c pool) password = true ->
  Forall (fun c => In c pool) password.
Proof.
  rewrite forallb_forall, Forall_forall. intros Hall c Hc.
  apply char_in_sound. now apply Hall.
Qed.

(** X2. Every string of the requested length over the pool that passes
    the check is a possible result: under the draws that spell it,
    [generate_password] returns it from the first draw, whatever the
    fuel.  With C1 to C3 this makes the possible results exactly the
    strings of that length over the pool that pass the check. *)
Theorem every_acceptable_string_can_be_returned
  (len : Z) (ul uu ud us : bool) (cs : option str) (pw : str) (fuel : nat) :
  ul || uu || ud || us = true ->
  Z.of_nat (length pw) = len ->
  Forall (fun c => In c (chars ul uu ud us cs)) pw ->
  _password_meets_requirements ul uu ud us cs pw = true ->
  generate_password len ul uu ud us cs fuel
    (replay (draws_for (chars ul uu ud us cs) pw))
  = (Ok pw, skip (length pw) (replay (draws_for (chars ul uu ud us cs) pw))).
Proof.
  intros Hany Hlen Hall Hacc.
  apply generate_returns_spelled; try assumption.
  - now apply any_flag_pool_nonempty.
  - unfold range_len. lia.
Qed.

Lemma every_acceptable_string_can_be_returned_witness :
  generate_password 5 true false true true (Some (of_literal "#")) 0
    (replay [9; 26; 36; 0; 0])
  = (Ok (of_literal "j0#aa"), skip 5 (replay [9; 26; 36; 0; 0])).
Proof.
  apply (every_acceptable_string_can_be_returned
           5 true false true true (Some (of_literal "#"))
           (of_literal "j0#aa") 0).
  - reflexivity.
  - reflexivity.
  - apply all_char_in_sound. reflexivity.
  - reflexivity.
Defined.

(** ** When a password can be returned at all *)

Lemma hd_in_class (cls : str) : cls <> [] -> In (hd 0%N cls) cls.
Proof. destruct cls; [congruence|intros _; now left]. Qed.

Lemma special_set_nonempty (cs : option str) : special_set cs <> [].
Proof. destruct cs as [[|c rest]|]; discriminate. Qed.

Lemma required_classes_nonempty (ul uu ud us : bool) (cs : option str) :
  Forall (fun cls => cls <> []) (required_classes ul uu ud us cs).
Proof.
  unfold required_classes.
  repeat (apply Forall_app; split);
    [destruct ul|destruct uu|destruct ud|destruct us];
    repeat constructor; try discriminate.
  apply special_set_nonempty.
Qed.

Lemma required_classes_in_pool (ul uu ud us : bool) (cs : option str) :
  forall cls c,
    In cls (required_classes ul uu ud us cs) -> In c cls ->
    In c (chars ul uu ud us cs).
Proof.
  intros cls c Hcls Hc. apply in_chars_iff.
  unfold required_classes in Hcls. rewrite !in_app_iff in Hcls.
  destruct Hcls as [H|[H|[H|H]]];
    [destruct ul|destruct uu|destruct ud|destruct us];
    simpl in H; try tauto; destruct H as [<-|[]]; tauto.
Qed.

Lemma meets_requirements_required (ul uu ud us : bool) (cs : option str)
      (pw : str) :
  _password_meets_requirements ul uu ud us cs pw = true
  <-> Forall (fun cls => exists c, In c pw /\ In c cls)
        (required_classes ul uu ud us cs).
Proof.
  rewrite meets_requirements_iff. unfold required_classes.
  rewrite !Forall_app. destruct ul, uu, ud, us;
    repeat match goal with
      | |- context [Forall _ [?x]] =>
          rewrite (Forall_cons_iff _ x [])
      end; intuition (try discriminate; auto using Forall_nil).
Qed.

Lemma required_classes_length (ul uu ud us : bool) (cs : option str) :
  length (required_classes ul uu ud us cs)
  = Nat.b2n ul + Nat.b2n uu + Nat.b2n ud + Nat.b2n us.
Proof. destruct ul, uu, ud, us; reflexivity. Qed.

Lemma one_of_each_spec (ul uu ud us : bool) (cs : option str) :
  Forall (fun cls => exists c, In c (one_of_each ul uu ud us cs) /\ In c cls)
    (required_classes ul uu ud us cs)
  /\ Forall (fun c => In c (chars ul uu ud us cs))
       (one_of_each ul uu ud us cs).
Proof.
  unfold one_of_each.
  pose proof (required_classes_nonempty ul uu ud us cs) as Hne.
  pose proof (required_classes_in_pool ul uu ud us cs) as Hpool.
  rewrite Forall_forall in Hne. split.
  - apply Forall_forall. intros cls Hcls. exists (hd 0%N cls). split.
    + apply in_map_iff. now exists cls.
    + apply hd_in_class. now apply Hne.
  - apply Forall_forall. intros c Hc. apply in_map_iff in Hc.
    destruct Hc as (cls & <- & Hcls).
    apply (Hpool cls); [assumption|].
    apply hd_in_class. now apply Hne.
Qed.

Lemma padded_spec (len : Z) (ul uu ud us : bool) (cs : option str) :
  ul || uu || ud || us = true ->
  (Z.of_nat (Nat.b2n ul + Nat.b2n uu + Nat.b2n ud + Nat.b2n us) <= len)%Z ->
  Z.of_nat (length (padded len ul uu ud us cs)) = len
  /\ Forall (fun c => In c (chars ul uu ud us cs)) (padded len ul uu ud us cs)
  /\ _password_meets_requirements ul uu ud us cs (padded len ul uu ud us cs)
     = true.
Proof.
  intros Hany Hlen.
  destruct (one_of_each_spec ul uu ud us cs) as (Hcover & Hpool).
  assert (Hcount : length (one_of_each ul uu ud us cs)
                   = Nat.b2n ul + Nat.b2n uu + Nat.b2n ud + Nat.b2n us).
  { unfold one_of_each. rewrite length_map. apply required_classes_length. }
  unfold padded. split; [|split].
  - rewrite length_app, repeat_length, Hcount. unfold range_len. lia.
  - apply Forall_app. split; [assumption|].
    apply Forall_forall. intros c Hc. apply repeat_spec in Hc. subst c.
    apply hd_in_class. now apply any_flag_pool_nonempty.
  - apply meets_requirements_required.
    eapply Forall_impl; [|exact Hcover].
    intros cls (c & Hc & Hcls). exists c. split; [|assumption].
    apply in_app_iff. now left.
Qed.

(** X3. When at least one flag is set and [length] is at least the
    number of set flags, some random source makes [generate_password]
    return from its first draw: the requirements can be met. *)
Theorem long_enough_length_can_return
  (len : Z) (ul uu ud us : bool) (cs : option str) :
  ul || uu || ud || us = true ->
  (Z.of_nat (Nat.b2n ul + Nat.b2n uu + Nat.b2n ud + Nat.b2n us) <= len)%Z ->
  exists s pw s',
    (forall fuel, generate_password len ul uu ud us cs fuel s = (Ok pw, s'))
    /\ cursor s' = cursor s + Z.to_nat len.
Proof.
  intros Hany Hlen.
  destruct (padded_spec len ul uu ud us cs Hany Hlen) as (Hn & Hpool & Hacc).
  assert (Hne : chars ul uu ud us cs <> [])
    by now apply any_flag_pool_nonempty.
  assert (Hr : range_len len = length (padded len ul uu ud us cs))
    by (unfold range_len; lia).
  exists (replay (draws_for (chars ul uu ud us cs) (padded len ul uu ud us cs))),
    (padded len ul uu ud us cs),
    (skip (length (padded len ul uu ud us cs))
       (replay (draws_for (chars ul uu ud us cs)
                  (padded len ul uu ud us cs)))).
  split.
  - intros fuel. now apply generate_returns_spelled.
  - rewrite cursor_skip. f_equal. lia.
Qed.

Lemma long_enough_length_can_return_witness :
  exists s pw s',
    (forall fuel,
        generate_password 4 true true true true (Some (of_literal "a")) fuel s
        = (Ok pw, s'))
    /\ cursor s' = cursor s + Z.to_nat 4.
Proof.
  apply (long_enough_length_can_return
           4 true true true true (Some (of_literal "a")));
    [reflexivity|simpl; lia].
Defined.

(** ** When no password can be returned *)

Lemma pairwise_disjointb_sound (classes : list str) :
  pairwise_disjointb classes = true ->
  ForallOrdPairs share_no_char classes.
Proof.
  induction classes as [|cls rest IH]; simpl; intros H.
  - constructor.
  - apply andb_true_iff in H. destruct H as [Hcls Hrest].
    constructor; [|now apply IH].
    rewrite forallb_forall in Hcls. apply Forall_forall.
    intros other Hother. unfold share_no_char.
    apply disjointb_sound. now apply Hcls.
Qed.

(** A string that holds a character of each of several classes, no
    two of which share a character, is at least as long as the number
    of classes. *)
Lemma disjoint_classes_need_room (pw : str) (classes : list str) :
  ForallOrdPairs share_no_char classes ->
  Forall (fun cls => exists c, In c pw /\ In c cls) classes ->
  exists found,
    length found = length classes
    /\ NoDup found
    /\ incl found pw
    /\ forall c, In c found -> exists cls, In cls classes /\ In c cls.
Proof.
  induction 1 as [|cls rest Hcls Hrest IH]; intros Hall.
  - exists []. repeat split; [constructor|intros c []|intros c []].
  - inversion Hall as [|? ? (c & Hc & Hin) Hall']; subst.
    destruct (IH Hall') as (found & Hlen & Hnd & Hincl & Hfrom).
    exists (c :: found). repeat split.
    + simpl. now rewrite Hlen.
    + constructor; [|assumption].
      intros Hdup. destruct (Hfrom c Hdup) as (other & Hother & Hc').
      rewrite Forall_forall in Hcls. exact (Hcls other Hother c Hin Hc').
    + intros d [<-|Hd]; [assumption|now apply Hincl].
    + intros d [<-|Hd].
      * exists cls. split; [now left|assumption].
      * destruct (Hfrom d Hd) as (other & Hother & Hd').
        exists other. split; [now right|assumption].
Qed.

Lemma rigid_classes_disjoint (ul uu ud us : bool) (cs : option str) :
  ForallOrdPairs share_no_char (rigid_classes ul uu ud us cs).
Proof.
  apply pairwise_disjointb_sound.
  destruct ul, uu, ud, us, cs as [[|c rest]|]; vm_compute; reflexivity.
Qed.

Lemma rigid_classes_length (ul uu ud us : bool) (cs : option str) :
  length (rigid_classes ul uu ud us cs) = disjoint_required ul uu ud us cs.
Proof.
  destruct ul, uu, ud, us, cs as [[|c rest]|]; reflexivity.
Qed.

Lemma rigid_classes_required (ul uu ud us : bool) (cs : option str)
      (pw : str) :
  _password_meets_requirements ul uu ud us cs pw = true ->
  Forall (fun cls => exists c, In c pw /\ In c cls)
    (rigid_classes ul uu ud us cs).
Proof.
  intros Hacc. apply meets_requirements_iff in Hacc.
  destruct Hacc as (Hl & Hu & Hd & Hs).
  unfold rigid_classes, required_classes. rewrite !Forall_app.
  repeat split.
  - destruct ul; constructor; auto.
  - destruct uu; constructor; auto.
  - destruct ud; constructor; auto.
  - destruct cs as [[|c rest]|]; destruct us; constructor; auto.
Qed.

Lemma accepted_password_length (ul uu ud us : bool) (cs : option str)
      (pw : str) :
  _password_meets_requirements ul uu ud us cs pw = true ->
  disjoint_required ul uu ud us cs <= length pw.
Proof.
  intros Hacc.
  destruct (disjoint_classes_need_room pw _
              (rigid_classes_disjoint ul uu ud us cs)
              (rigid_classes_required ul uu ud us cs pw Hacc))
    as (found & Hlen & Hnd & Hincl & _).
  rewrite <- rigid_classes_length, <- Hlen.
  now apply NoDup_incl_length.
Qed.

(** X4. [generate_password] never returns when the number of
    characters it draws, [length] or none for a negative [length], is
    smaller than the number of set flags whose classes cannot share a
    character (lowercase, uppercase, digits, and the special class
    when no non-empty custom string replaces the default set): every
    drawn string is rejected, for every random source and any fuel.
    A non-empty custom string is not counted, since it may overlap the
    other classes. *)
Theorem too_short_length_never_returns
  (len : Z) (ul uu ud us : bool) (cs : option str) :
  Z.to_nat len < disjoint_required ul uu ud us cs ->
  (forall pw,
      length pw = Z.to_nat len ->
      _password_meets_requirements ul uu ud us cs pw = false)
  /\ (forall fuel s,
         generate_password len ul uu ud us cs fuel s
         = (OutOfFuel, skip (S fuel * Z.to_nat len) s)).
Proof.
  intros Hshort.
  assert (Hrej : forall pw,
             length pw = Z.to_nat len ->
             _password_meets_requirements ul uu ud us cs pw = false).
  { intros pw Hlen. apply not_true_is_false. intros Hacc.
    apply accepted_password_length in Hacc. lia. }
  split; [exact Hrej|].
  intros fuel s. apply generate_stuck.
  - apply any_flag_pool_nonempty.
    destruct ul, uu, ud, us; try reflexivity.
    exfalso. unfold disjoint_required in Hshort.
    destruct cs as [[|c rest]|]; cbn [Nat.b2n Nat.add] in Hshort; lia.
  - intros t. apply Hrej. now rewrite sample_length.
Qed.

(** Two letters cannot hold a lowercase letter, an uppercase letter
    and a default special character. *)
Lemma too_short_length_never_returns_witness :
  generate_password 2 true true false true None 50 (replay [3; 30; 60])
  = (OutOfFuel, skip (51 * 2) (replay [3; 30; 60])).
Proof.
  apply (too_short_length_never_returns 2 true true false true None).
  apply Nat.ltb_lt. reflexivity.
Defined.

(** A custom string that holds a lowercase letter lets one character
    serve two classes: length 1 is enough for two set flags. *)
Example overlapping_custom_special_returns :
  generate_password 1 true false false true (Some (of_literal "aA")) 0
    (replay [0])
  = (Ok (of_literal "a"), skip 1 (replay [0])).
Proof. reflexivity. Qed.

(** ** The check looks at which characters occur *)

(** X5. [_password_meets_requirements] depends only on which
    characters occur in the password: a string that holds every
    character of an accepted string is accepted, so neither inserting
    characters nor reordering them can make an accepted password
    fail. *)
Theorem requirements_kept_by_more_characters
  (ul uu ud us : bool) (cs : option str) (pw pw' : str) :
  incl pw pw' ->
  _password_meets_requirements ul uu ud us cs pw = true ->
  _password_meets_requirements ul uu ud us cs pw' = true.
Proof.
  intros Hincl Hacc.
  apply meets_requirements_required in Hacc.
  apply meets_requirements_required.
  eapply Forall_impl; [|exact Hacc].
  intros cls (c & Hc & Hcls). exists c. split; [now apply Hincl|assumption].
Qed.

Lemma requirements_kept_by_more_characters_witness :
  _password_meets_requirements true false true true None
    (of_literal "9x?x9--")
  = true.
Proof.
  apply (requirements_kept_by_more_characters
           true false true true None (of_literal "x9?")).
  - intros c Hc. simpl in *. tauto.
  - reflexivity.
Defined.

(** ** Characters of classes that are switched off *)

Lemma lowercase_digit_disjoint (c : char) :
  In c lowercase_chars -> In c digit_chars -> False.
Proof. apply disjointb_sound. vm_compute. reflexivity. Qed.

Lemma uppercase_digit_disjoint (c : char) :
  In c uppercase_chars -> In c digit_chars -> False.
Proof. apply disjointb_sound. vm_compute. reflexivity. Qed.

(** X6. A returned password holds no character of a class whose flag
    is false, as long as the custom special string holds none: with
    the flag false and no character of that class in the custom
    string, no lowercase letter (respectively uppercase letter, digit)
    occurs; with the special flag false no character of the default
    special set occurs.  The custom string is the only way a
    switched-off class can come back. *)
Theorem switched_off_class_absent
  (len : Z) (ul uu ud us : bool) (cs : option str)
  (fuel : nat) (s s' : rng) (pw : str) :
  generate_password len ul uu ud us cs fuel s = (Ok pw, s') ->
  (ul = false ->
   (forall custom c, cs = Some custom -> In c custom ->
                     ~ In c lowercase_chars) ->
   forall c, In c pw -> ~ In c lowercase_chars)
  /\ (uu = false ->
      (forall custom c, cs = Some custom -> In c custom ->
                        ~ In c uppercase_chars) ->
      forall c, In c pw -> ~ In c uppercase_chars)
  /\ (ud = false ->
      (forall custom c, cs = Some custom -> In c custom ->
                        ~ In c digit_chars) ->
      forall c, In c pw -> ~ In c digit_chars)
  /\ (us = false -> forall c, In c pw -> ~ In c special_chars).
Proof.
  intros Hrun.
  assert (Hmem : forall c, In c pw ->
             (ul = true /\ In c lowercase_chars)
             \/ (uu = true /\ In c uppercase_chars)
             \/ (ud = true /\ In c digit_chars)
             \/ (us = true /\ In c (special_set cs))).
  { intros c Hc. apply generate_ok_inv in Hrun.
    destruct Hrun as (Hne & _ & t & ->).
    pose proof (sample_in _ (range_len len) t Hne) as Hall.
    rewrite Forall_forall in Hall. now apply in_chars_iff, Hall. }
  assert (Hsp : forall (cls : str) c,
             (forall d, In d special_chars -> In d cls -> False) ->
             (forall custom d, cs = Some custom -> In d custom ->
                               ~ In d cls) ->
             In c (special_set cs) -> In c cls -> False).
  { intros cls c Hdef Hcust Hin Hcls. unfold special_set in Hin.
    destruct cs as [[|c0 rest]|].
    - exact (Hdef c Hin Hcls).
    - exact (Hcust (c0 :: rest) c eq_refl Hin Hcls).
    - exact (Hdef c Hin Hcls). }
  split; [|split; [|split]].
  - intros -> Hcust c Hc Hlow.
    destruct (Hmem c Hc) as [[Hf _]|[[_ H]|[[_ H]|[_ H]]]].
    + discriminate Hf.
    + exact (lowercase_uppercase_disjoint c Hlow H).
    + exact (lowercase_digit_disjoint c Hlow H).
    + exact (Hsp lowercase_chars c special_lowercase_disjoint Hcust H Hlow).
  - intros -> Hcust c Hc Hupp.
    destruct (Hmem c Hc) as [[_ H]|[[Hf _]|[[_ H]|[_ H]]]].
    + exact (lowercase_uppercase_disjoint c H Hupp).
    + discriminate Hf.
    + exact (uppercase_digit_disjoint c Hupp H).
    + exact (Hsp uppercase_chars c special_uppercase_disjoint Hcust H Hupp).
  - intros -> Hcust c Hc Hdig.
    destruct (Hmem c Hc) as [[_ H]|[[_ H]|[[Hf _]|[_ H]]]].
    + exact (lowercase_digit_disjoint c H Hdig).
    + exact (uppercase_digit_disjoint c H Hdig).
    + discriminate Hf.
    + exact (Hsp digit_chars c special_digit_disjoint Hcust H Hdig).
  - intros -> c Hc Hspec.
    destruct (Hmem c Hc) as [[_ H]|[[_ H]|[[_ H]|[Hf _]]]].
    + exact (special_lowercase_disjoint c Hspec H).
    + exact (special_uppercase_disjoint c Hspec H).
    + exact (special_digit_disjoint c Hspec H).
    + discriminate Hf.
Qed.

Lemma switched_off_class_absent_witness :
  generate_password 3 true false false true None 0 (replay [30; 4; 26])
  = (Ok (of_literal "%e!"), skip 3 (replay [30; 4; 26]))
  /\ (forall c, In c (of_literal "%e!") -> ~ In c uppercase_chars)
  /\ (forall c, In c (of_literal "%e!") -> ~ In c digit_chars).
Proof.
  assert (Hrun : generate_password 3 true false false true None 0
                   (replay [30; 4; 26])
                 = (Ok (of_literal "%e!"), skip 3 (replay [30; 4; 26])))
    by reflexivity.
  split; [exact Hrun|].
  destruct (switched_off_class_absent
              3 true false false true None 0 _ _ _ Hrun)
    as (_ & Hu & Hd & _).
  split.
  - apply Hu; [reflexivity|]. intros custom c Hcs. discriminate Hcs.
  - apply Hd; [reflexivity|]. intros custom c Hcs. discriminate Hcs.
Defined.

(** A custom special string brings a switched-off class back: digits
    are off, and the password is made of digits. *)
Example custom_special_brings_digits_back :
  generate_password 2 false false false true (Some (of_literal "12")) 0
    (replay [0; 1])
  = (Ok (of_literal "12"), skip 2 (replay [0; 1])).
Proof. reflexivity. Qed.

(** ** Repeated characters in the pool *)

Lemma NoDup_app_disjoint (l l' : str) :
  NoDup (l ++ l') -> forall c, In c l -> ~ In c l'.
Proof.
  induction l as [|d l IH]; simpl; intros Hnd c Hc Hc'; [destruct Hc|].
  apply NoDup_cons_iff in Hnd. destruct Hnd as [Hd Hnd].
  destruct Hc as [->|Hc].
  - apply Hd, in_app_iff. now right.
  - exact (IH Hnd c Hc Hc').
Qed.

Lemma chars_split (ul uu ud us : bool) (cs : option str) :
  chars ul uu ud us cs
  = chars ul uu ud false None ++ (if us then special_set cs else []).
Proof.
  unfold chars, special_set. cbv zeta.
  destruct us; [|now rewrite app_nil_r].
  destruct cs as [[|c rest]|]; reflexivity.
Qed.

Lemma fixed_classes_nodup (ul uu ud : bool) :
  NoDup (chars ul uu ud false None).
Proof.
  assert (H : nodup N.eq_dec (chars ul uu ud false None)
              = chars ul uu ud false None)
    by (destruct ul, uu, ud; vm_compute; reflexivity).
  rewrite <- H. apply NoDup_nodup.
Qed.

Lemma special_chars_nodup : NoDup special_chars.
Proof.
  assert (H : nodup N.eq_dec special_chars = special_chars)
    by (vm_compute; reflexivity).
  rewrite <- H. apply NoDup_nodup.
Qed.

(** X7. The pool is a concatenation and is not deduplicated.  It
    holds no character twice exactly when, the special flag being set
    and a non-empty custom string supplied, the custom string repeats
    no character and holds no character of a class whose flag is set.
    In particular the pool built from the four built-in classes never
    holds a character twice. *)
Theorem pool_repeats_only_through_custom_string
  (ul uu ud us : bool) (cs : option str) :
  NoDup (chars ul uu ud us cs)
  <-> (us = true ->
       forall c0 rest, cs = Some (c0 :: rest) ->
         NoDup (c0 :: rest)
         /\ forall c, In c (c0 :: rest) ->
              ~ ((ul = true /\ In c lowercase_chars)
                 \/ (uu = true /\ In c uppercase_chars)
                 \/ (ud = true /\ In c digit_chars))).
Proof.
  rewrite chars_split.
  assert (Hfixed : forall c,
             In c (chars ul uu ud false None)
             <-> (ul = true /\ In c lowercase_chars)
                 \/ (uu = true /\ In c uppercase_chars)
                 \/ (ud = true /\ In c digit_chars)).
  { intros c. rewrite in_chars_iff. intuition discriminate. }
  split.
  - intros Hnd -> c0 rest ->. simpl in Hnd. split.
    + now apply NoDup_app_remove_l in Hnd.
    + intros c Hc Hcls. apply Hfixed in Hcls.
      exact (NoDup_app_disjoint _ _ Hnd c Hcls Hc).
  - intros Hcust. apply NoDup_app.
    + apply fixed_classes_nodup.
    + destruct us; [|constructor].
      destruct cs as [[|c0 rest]|]; simpl.
      * apply special_chars_nodup.
      * now apply (Hcust eq_refl c0 rest).
      * apply special_chars_nodup.
    + intros c Hc Hsp. destruct us; [|destruct Hsp].
      apply Hfixed in Hc.
      destruct cs as [[|c0 rest]|]; simpl in Hsp.
      * destruct Hc as [[_ H]|[[_ H]|[_ H]]].
        -- exact (special_lowercase_disjoint c Hsp H).
        -- exact (special_uppercase_disjoint c Hsp H).
        -- exact (special_digit_disjoint c Hsp H).
      * destruct (Hcust eq_refl c0 rest eq_refl) as [_ Hout].
        exact (Hout c Hsp Hc).
      * destruct Hc as [[_ H]|[[_ H]|[_ H]]].
        -- exact (special_lowercase_disjoint c Hsp H).
        -- exact (special_uppercase_disjoint c Hsp H).
        -- exact (special_digit_disjoint c Hsp H).
Qed.

(** The custom string z# with lowercase set: z is in the pool twice,
    at positions 25 and 26. *)
Lemma pool_repeats_only_through_custom_string_witness :
  ~ NoDup (chars true false false true (Some (of_literal "z#")))
  /\ nth 25 (chars true false false true (Some (of_literal "z#"))) 0%N
     = nth 26 (chars true false false true (Some (of_literal "z#"))) 0%N.
Proof.
  split; [|reflexivity].
  intros Hnd.
  destruct (proj1 (pool_repeats_only_through_custom_string
                     true false false true (Some (of_literal "z#")))
              Hnd eq_refl _ _ eq_refl) as [_ Hout].
  apply (Hout 122%N); [now left|].
  left. split; [reflexivity|]. apply char_in_sound. reflexivity.
Defined.

(** * The window's handlers *)

Lemma handler_without_class (fuel : nat) (a : app) (s : rng) :
  some_class_checked a = false ->
  _generate_password fuel a s = (Ok (open_dialog a Warning), s).
Proof.
  unfold some_class_checked, _generate_password, any. simpl.
  destruct (use_lowercase a), (use_uppercase a), (use_digits a),
    (use_special a); simpl; intros H; try discriminate H; reflexivity.
Qed.

Lemma handler_with_class (fuel : nat) (a : app) (s : rng) :
  some_class_checked a = true ->
  _generate_password fuel a s
  = match generate_password (length_spinbox a)
            (use_lowercase a) (use_uppercase a) (use_digits a)
            (use_special a) (custom_special_of a) fuel s with
    | (Ok password, s') => (Ok (display_setText a password), s')
    | (Raise e, s') => (Ok (open_dialog a (Critical e)), s')
    | (OutOfFuel, s') => (OutOfFuel, s')
    end.
Proof.
  unfold some_class_checked, _generate_password, any. simpl.
  destruct (use_lowercase a), (use_uppercase a), (use_digits a),
    (use_special a); simpl; intros H; try discriminate H; reflexivity.
Qed.

(** What a returning handler call did: it warned and touched nothing
    else, or it displayed a password the generator returned. *)
Lemma handler_ok_inv (fuel : nat) (a : app) (s : rng) (a' : app) (s' : rng) :
  _generate_password fuel a s = (Ok a', s') ->
  (some_class_checked a = false /\ a' = open_dialog a Warning /\ s' = s)
  \/ (some_class_checked a = true
      /\ exists pw,
          generate_password (length_spinbox a)
            (use_lowercase a) (use_uppercase a) (use_digits a)
            (use_special a) (custom_special_of a) fuel s = (Ok pw, s')
          /\ a' = display_setText a pw).
Proof.
  intros Hrun. destruct (some_class_checked a) eqn:Hany.
  - right. split; [reflexivity|].
    rewrite handler_with_class in Hrun by assumption.
    destruct (generate_password _ _ _ _ _ _ _ _) as [[pw|e|] t] eqn:Hgen.
    + injection Hrun as <- <-. now exists pw.
    + exfalso. revert Hgen. apply generate_no_raise.
      now apply any_flag_pool_nonempty.
    + discriminate Hrun.
  - left. rewrite handler_without_class in Hrun by assumption.
    injection Hrun as <- <-. auto.
Qed.

Lemma accepted_password_nonempty (ul uu ud us : bool) (cs : option str)
      (pw : str) :
  ul || uu || ud || us = true ->
  _password_meets_requirements ul uu ud us cs pw = true ->
  pw <> [].
Proof.
  intros Hany Hacc ->. apply meets_requirements_iff in Hacc.
  destruct Hacc as (Hl & Hu & Hd & Hs).
  destruct ul; [destruct (Hl eq_refl) as (c & [] & _)|].
  destruct uu; [destruct (Hu eq_refl) as (c & [] & _)|].
  destruct ud; [destruct (Hd eq_refl) as (c & [] & _)|].
  destruct us; [destruct (Hs eq_refl) as (c & [] & _)|].
  discriminate Hany.
Qed.

(** X8. [_generate_password] never opens the error dialog and never
    lets an exception escape: the only exception of the generator, the
    one for an empty pool, is ruled out by the check made before the
    call.  A handler call that returns opened no dialog, or only the
    warning that no character type is selected. *)
Theorem handler_never_reports_an_error
  (fuel : nat) (a : app) (s : rng) :
  (forall e s', _generate_password fuel a s <> (Raise e, s'))
  /\ (forall a' s',
         _generate_password fuel a s = (Ok a', s') ->
         (dialogs a' = dialogs a \/ dialogs a' = dialogs a ++ [Warning])
         /\ forall e, In (Critical e) (dialogs a') ->
                      In (Critical e) (dialogs a)).
Proof.
  split.
  - intros e s' Hrun. destruct (some_class_checked a) eqn:Hany.
    + rewrite handler_with_class in Hrun by assumption.
      destruct (generate_password _ _ _ _ _ _ _ _) as [[pw|e0|] t];
        discriminate Hrun.
    + rewrite handler_without_class in Hrun by assumption.
      discriminate Hrun.
  - intros a' s' Hrun.
    assert (Hd : dialogs a' = dialogs a \/ dialogs a' = dialogs a ++ [Warning]).
    { apply handler_ok_inv in Hrun.
      destruct Hrun as [(_ & -> & _)|(_ & pw & _ & ->)]; simpl; auto. }
    split; [exact Hd|].
    intros e Hin. destruct Hd as [Hd|Hd]; rewrite Hd in Hin.
    + assumption.
    + apply in_app_iff in Hin.
      destruct Hin as [Hin|[Heq|[]]]; [assumption|discriminate Heq].
Qed.

Lemma handler_never_reports_an_error_witness :
  _generate_password 3
    (mkApp 8 false false false false (of_literal "#") [] [] [])
    (replay [1; 2])
  = (Ok (mkApp 8 false false false false (of_literal "#") [] [] [Warning]),
     replay [1; 2])
  /\ forall e,
      ~ In (Critical e)
          (dialogs (mkApp 8 false false false false (of_literal "#")
                      [] [] [Warning])).
Proof.
  assert (Hrun : _generate_password 3
                   (mkApp 8 false false false false (of_literal "#") [] [] [])
                   (replay [1; 2])
                 = (Ok (mkApp 8 false false false false (of_literal "#")
                          [] [] [Warning]),
                    replay [1; 2]))
    by reflexivity.
  split; [exact Hrun|].
  intros e Hin.
  destruct (handler_never_reports_an_error 3
              (mkApp 8 false false false false (of_literal "#") [] [] [])
              (replay [1; 2])) as [_ Hok].
  destruct (Hok _ _ Hrun) as [_ Hold].
  exact (Hold e Hin).
Defined.

(** X9. What a returning call of [_generate_password] leaves behind.
    With no box checked it opens the warning and changes nothing
    else: the display keeps its text and no randomness is read.
    Otherwise, the spin box holding a length of its range 4 to 64, it
    opens no dialog and only replaces the displayed text, by a
    password of exactly that length which holds a character of every
    checked class; the special class is the text of the custom field
    when that is non-empty and the built-in set when it is empty. *)
Theorem handler_displays_valid_password
  (fuel : nat) (a : app) (s : rng) (a' : app) (s' : rng) :
  (4 <= length_spinbox a <= 64)%Z ->
  _generate_password fuel a s = (Ok a', s') ->
  (some_class_checked a = false
   /\ a' = open_dialog a Warning
   /\ password_display a' = password_display a
   /\ s' = s)
  \/ (some_class_checked a = true
      /\ a' = display_setText a (password_display a')
      /\ Z.of_nat (length (password_display a')) = length_spinbox a
      /\ (use_lowercase a = true ->
          exists c, In c (password_display a') /\ In c lowercase_chars)
      /\ (use_uppercase a = true ->
          exists c, In c (password_display a') /\ In c uppercase_chars)
      /\ (use_digits a = true ->
          exists c, In c (password_display a') /\ In c digit_chars)
      /\ (use_special a = true ->
          exists c, In c (password_display a')
                    /\ In c (match special_chars_edit a with
                             | [] => special_chars
                             | _ :: _ => special_chars_edit a
                             end))).
Proof.
  intros Hrange Hrun. apply handler_ok_inv in Hrun.
  destruct Hrun as [(Hnone & -> & ->)|(Hany & pw & Hgen & ->)].
  - left. auto.
  - right. split; [assumption|]. split; [reflexivity|]. simpl.
    apply generate_ok_inv in Hgen. destruct Hgen as (_ & Hacc & t & Hpw).
    split.
    + rewrite Hpw, sample_length. unfold range_len. lia.
    + apply meets_requirements_iff in Hacc.
      destruct Hacc as (Hl & Hu & Hd & Hs).
      repeat split; try assumption.
      intros Hus. specialize (Hs Hus).
      unfold custom_special_of in Hs. rewrite Hus in Hs.
      destruct (special_chars_edit a); exact Hs.
Qed.

Lemma handler_displays_valid_password_witness :
  _generate_password 1
    (mkApp 4 true false true true [] (of_literal "old") [] [])
    (replay [0; 0; 0; 0; 65; 27; 1; 36])
  = (Ok (mkApp 4 true false true true [] (of_literal "?1b!") [] []),
     skip 8 (replay [0; 0; 0; 0; 65; 27; 1; 36]))
  /\ exists c, In c (of_literal "?1b!") /\ In c special_chars.
Proof.
  assert (Hrun : _generate_password 1
                   (mkApp 4 true false true true [] (of_literal "old") [] [])
                   (replay [0; 0; 0; 0; 65; 27; 1; 36])
                 = (Ok (mkApp 4 true false true true [] (of_literal "?1b!")
                          [] []),
                    skip 8 (replay [0; 0; 0; 0; 65; 27; 1; 36])))
    by reflexivity.
  split; [exact Hrun|].
  assert (Hrange : (4 <= length_spinbox
                            (mkApp 4 true false true true []
                               (of_literal "old") [] []) <= 64)%Z)
    by (simpl; lia).
  destruct (handler_displays_valid_password 1 _ _ _ _ Hrange Hrun)
    as [(Hnone & _)|(_ & _ & _ & _ & _ & _ & Hs)].
  - discriminate Hnone.
  - exact (Hs eq_refl).
Defined.

(** X10. Copying after a generation that displayed a password puts
    exactly the displayed password on the clipboard and opens the
    information dialog; the displayed password is never empty, so the
    copy is never skipped.  With an empty display, as before any
    password was shown, [_copy_password] does nothing: the clipboard
    keeps its text and no dialog opens. *)
Theorem copy_after_generate_copies_the_password
  (fuel : nat) (a : app) (s : rng) (a' : app) (s' : rng) :
  some_class_checked a = true ->
  _generate_password fuel a s = (Ok a', s') ->
  password_display a' <> []
  /\ clipboard (_copy_password a') = password_display a'
  /\ password_display (_copy_password a') = password_display a'
  /\ dialogs (_copy_password a') = dialogs a ++ [Information]
  /\ (forall b, password_display b = [] -> _copy_password b = b).
Proof.
  intros Hany Hrun. apply handler_ok_inv in Hrun.
  destruct Hrun as [(Hnone & _)|(_ & pw & Hgen & ->)]; [congruence|].
  apply generate_ok_inv in Hgen. destruct Hgen as (_ & Hacc & _).
  apply accepted_password_nonempty in Hacc; [|exact Hany].
  destruct pw as [|c rest]; [congruence|].
  repeat split.
  - discriminate.
  - intros b Hb. unfold _copy_password. now rewrite Hb.
Qed.

Lemma copy_after_generate_copies_the_password_witness :
  _generate_password 0
    (mkApp 4 false false true false [] []
       (of_literal "on the clipboard") [])
    (replay [1; 2; 3; 4])
  = (Ok (mkApp 4 false false true false [] (of_literal "1234")
           (of_literal "on the clipboard") []),
     skip 4 (replay [1; 2; 3; 4]))
  /\ clipboard
       (_copy_password
          (mkApp 4 false false true false [] (of_literal "1234")
             (of_literal "on the clipboard") []))
     = of_literal "1234".
Proof.
  assert (Hrun : _generate_password 0
                   (mkApp 4 false false true false [] []
                      (of_literal "on the clipboard") [])
                   (replay [1; 2; 3; 4])
                 = (Ok (mkApp 4 false false true false [] (of_literal "1234")
                          (of_literal "on the clipboard") []),
                    skip 4 (replay [1; 2; 3; 4])))
    by reflexivity.
  split; [exact Hrun|].
  destruct (copy_after_generate_copies_the_password 0
              (mkApp 4 false false true false [] []
                 (of_literal "on the clipboard") [])
              _ _ _ eq_refl Hrun)
    as (_ & Hclip & _).
  exact Hclip.
Defined.

(** From a length of at least 4 the handler can display a password
    at once. *)
Lemma handler_can_return (a : app) :
  (4 <= length_spinbox a)%Z ->
  some_class_checked a = true ->
  exists s pw s',
    (forall fuel,
        _generate_password fuel a s = (Ok (display_setText a pw), s'))
    /\ Z.of_nat (length pw) = length_spinbox a
    /\ cursor s' = cursor s + length pw.
Proof.
  intros Hmin Hany.
  set (ul := use_lowercase a). set (uu := use_uppercase a).
  set (ud := use_digits a). set (us := use_special a).
  set (cs := custom_special_of a). set (len := length_spinbox a).
  assert (Hcount :
           (Z.of_nat (Nat.b2n ul + Nat.b2n uu + Nat.b2n ud + Nat.b2n us)
            <= len)%Z)
    by (destruct ul, uu, ud, us; simpl; lia).
  destruct (padded_spec len ul uu ud us cs Hany Hcount)
    as (Hn & Hpool & Hacc).
  exists (replay (draws_for (chars ul uu ud us cs) (padded len ul uu ud us cs))),
    (padded len ul uu ud us cs),
    (skip (length (padded len ul uu ud us cs))
       (replay (draws_for (chars ul uu ud us cs)
                  (padded len ul uu ud us cs)))).
  split; [|split].
  - intros fuel. rewrite handler_with_class by assumption.
    fold ul uu ud us cs len.
    rewrite generate_returns_spelled; try assumption.
    + reflexivity.
    + now apply any_flag_pool_nonempty.
    + unfold range_len. lia.
  - exact Hn.
  - apply cursor_skip.
Qed.

(** X11. The spin box is created with the minimum 4, the number of
    character classes.  Whatever boxes are checked (at least one) and
    whatever the custom field holds, for a length of at least 4 some
    random source makes the click return at once and display a
    password of that length: the window cannot be put into a state in
    which generation is certain to loop. *)
Theorem window_lengths_can_always_return (a : app) :
  (4 <= length_spinbox a)%Z ->
  some_class_checked a = true ->
  exists s pw s',
    (forall fuel,
        _generate_password fuel a s = (Ok (display_setText a pw), s'))
    /\ Z.of_nat (length pw) = length_spinbox a
    /\ cursor s' = cursor s + length pw.
Proof. apply handler_can_return. Qed.

Lemma window_lengths_can_always_return_witness :
  exists s pw s',
    (forall fuel,
        _generate_password fuel
          (mkApp 4 true true true true (of_literal "aA1") [] [] []) s
        = (Ok (display_setText
                 (mkApp 4 true true true true (of_literal "aA1") [] [] [])
                 pw), s'))
    /\ Z.of_nat (length pw) = 4%Z
    /\ cursor s' = cursor s + length pw.
Proof.
  apply (window_lengths_can_always_return
           (mkApp 4 true true true true (of_literal "aA1") [] [] []));
    [simpl; lia|reflexivity].
Defined.

(** ** Opening the window *)

Lemma default_edit_subset_of_special_chars (c : char) :
  In c (of_literal "!@#$%^&*()-_=+") -> In c special_chars.
Proof.
  intros Hc. apply char_in_sound.
  assert (Hall : forallb (fun d => char_in d special_chars)
                   (of_literal "!@#$%^&*()-_=+") = true)
    by (vm_compute; reflexivity).
  rewrite forallb_forall in Hall. now apply Hall.
Qed.

(** X12. [__init__] generates the first password with the widgets'
    initial values: length 16, all four classes, and the 14 characters
    the custom field is created with, not the 30 of the built-in
    special set.  For every random source, a window that opens shows
    no dialog and a password of 16 characters, each a letter, a digit
    or one of those 14 characters, with at least one lowercase letter,
    one uppercase letter, one digit and one of the 14; and some random
    source lets the window open without a redraw. *)
Theorem first_password_uses_the_fields_special_characters
  (clip : str) :
  (forall fuel s a' s',
      __init__ clip fuel s = (Ok a', s') ->
      a' = display_setText (widgets clip) (password_display a')
      /\ dialogs a' = []
      /\ length (password_display a') = 16
      /\ (forall c, In c (password_display a') ->
            In c lowercase_chars \/ In c uppercase_chars
            \/ In c digit_chars \/ In c (of_literal "!@#$%^&*()-_=+"))
      /\ (exists c, In c (password_display a') /\ In c lowercase_chars)
      /\ (exists c, In c (password_display a') /\ In c uppercase_chars)
      /\ (exists c, In c (password_display a') /\ In c digit_chars)
      /\ (exists c, In c (password_display a')
                    /\ In c (of_literal "!@#$%^&*()-_=+")))
  /\ (exists s a' s', forall fuel, __init__ clip fuel s = (Ok a', s')).
Proof.
  split.
  - intros fuel s a' s' Hrun. unfold __init__ in Hrun.
    apply handler_ok_inv in Hrun.
    destruct Hrun as [(Hnone & _)|(_ & pw & Hgen & ->)];
      [discriminate Hnone|].
    simpl in Hgen. simpl.
    apply generate_ok_inv in Hgen. destruct Hgen as (Hne & Hacc & t & Hpw).
    split; [reflexivity|]. split; [reflexivity|]. split.
    { rewrite Hpw. apply sample_length. }
    split.
    { intros c Hc.
      pose proof (sample_in _ (range_len 16) t Hne) as Hall.
      rewrite Forall_forall in Hall. rewrite Hpw in Hc.
      specialize (Hall c Hc). apply in_chars_iff in Hall.
      destruct Hall as [[_ H]|[[_ H]|[[_ H]|[_ H]]]]; auto. }
    apply meets_requirements_iff in Hacc.
    destruct Hacc as (Hl & Hu & Hd & Hs). auto.
  - destruct (handler_can_return (widgets clip))
      as (s & pw & s' & Hrun & _); [simpl; lia|reflexivity|].
    exists s, (display_setText (widgets clip) pw), s'. exact Hrun.
Qed.

(** The draws 0, 26, 52, 62 and then zeroes spell aA0! followed by
    twelve times a. *)
Lemma first_password_uses_the_fields_special_characters_witness :
  __init__ [] 0 (replay [0; 26; 52; 62])
  = (Ok (display_setText (widgets []) (of_literal "aA0!aaaaaaaaaaaa")),
     skip 16 (replay [0; 26; 52; 62]))
  /\ length (of_literal "aA0!aaaaaaaaaaaa") = 16.
Proof.
  assert (Hrun : __init__ [] 0 (replay [0; 26; 52; 62])
                 = (Ok (display_setText (widgets [])
                          (of_literal "aA0!aaaaaaaaaaaa")),
                    skip 16 (replay [0; 26; 52; 62])))
    by reflexivity.
  split; [exact Hrun|].
  destruct (first_password_uses_the_fields_special_characters [])
    as [Hopen _].
  destruct (Hopen 0 _ _ _ Hrun) as (_ & _ & Hlen & _).
  exact Hlen.
Defined.
